(** * Water-scarcity simulation: incentive policies and Pareto filter

    A shallow embedding of [src/policies/incentive_policies.py],
    [src/utils.py] and [src/utils/helpers.py].

    Numbers are IEEE-754 binary64 values ([PrimFloat.float]), the element
    type of the NumPy arrays the code works on; a one-dimensional array is
    a [list float], a matrix a list of rows.  Calls that can raise return a
    [result]. *)

From Stdlib Require Import ZArith QArith Qpower Qabs Bool List Ascii String
  Floats Lia Lqa.
From stdpp Require Import base option list gmap strings.

Set Default Proof Using "Type".

(** ** Exceptions and results *)

Inductive exn : Type :=
  | ValueError
  | IndexError
  | FileNotFoundError
  | FileExistsError
  | NotADirectoryError
  | IsADirectoryError
  | TypeError.

Inductive result (A : Type) : Type :=
  | Return (a : A)
  | Raise (e : exn).

Arguments Return {A} a.
Arguments Raise {A} e.

(** Sequencing: an exception ends the computation. *)
#[export] Instance result_bind : MBind result :=
  λ A B k r, match r with
             | Return a => k a
             | Raise e => Raise e
             end.

#[export] Instance result_ret : MRet result := @Return.

Definition raises {A : Type} (r : result A) : Prop :=
  match r with
  | Return _ => False
  | Raise _ => True
  end.

(** Computations that also read and update a state of type [S]. *)
Definition stateful (S A : Type) : Type := S → result (A * S).

#[export] Instance stateful_ret {S : Type} : MRet (stateful S) :=
  λ A a s, Return (a, s).

#[export] Instance stateful_bind {S : Type} : MBind (stateful S) :=
  λ A B k c s, match c s with
               | Return (a, s') => k a s'
               | Raise e => Raise e
               end.

Definition throw {S A : Type} (e : exn) : stateful S A := λ _, Raise e.

(** ** Values passed across the policy interface *)

(** The contextual arguments of a policy are never inspected; any Python
    value may be passed for them. *)
Inductive pyval : Type :=
  | PyNone
  | PyBool (b : bool)
  | PyInt (n : Z)
  | PyFloat (x : float)
  | PyFloatArray (a : list float)
  | PyBoolArray (a : list bool).

(** [len(v)] of a one-dimensional array, [None] for a scalar. *)
Definition pylen (v : pyval) : option nat :=
  match v with
  | PyFloatArray a => Some (length a)
  | PyBoolArray a => Some (length a)
  | _ => None
  end.

(** The bound object of a policy: the simulation, of which the policies
    read the attribute [nb_actors] only. *)
Record simulation : Type := { nb_actors : Z }.

(** ** NumPy primitives on float64 arrays *)

Module np.

(** [a.astype(float)] on a float64 array: a copy with the same values. *)
Definition astype_float (a : list float) : list float :=
  map (λ x, x) a.

(** [a - c] with a scalar [c], broadcast over the array. *)
Definition sub_scalar (a : list float) (c : float) : list float :=
  map (λ x, (x - c)%float) a.

(** [c - a] with a scalar [c]. *)
Definition rsub_scalar (c : float) (a : list float) : list float :=
  map (λ x, (c - x)%float) a.

(** [-a]. *)
Definition neg (a : list float) : list float :=
  map (λ x, (- x)%float) a.

(** [a * c] with a scalar [c]. *)
Definition mul_scalar (a : list float) (c : float) : list float :=
  map (λ x, (x * c)%float) a.

(** [c * a] with a scalar [c]. *)
Definition rmul_scalar (c : float) (a : list float) : list float :=
  map (λ x, (c * x)%float) a.

(** [a - b] of two arrays of one shape. *)
Definition sub (a b : list float) : list float :=
  zip_with (λ x y, (x - y)%float) a b.

(** [np.zeros(n)]: raises [ValueError] on a negative dimension. *)
Definition zeros (n : Z) : result (list float) :=
  if (n <? 0)%Z then Raise ValueError
  else Return (replicate (Z.to_nat n) 0%float).

(** [np.ones(n, dtype=bool)]. *)
Definition ones_bool (n : nat) : list bool := replicate n true.

(** [costs <= c] and [costs < c]: the row [c] is broadcast over the
    rows of the matrix. *)
Definition le_rows (costs : list (list float)) (c : list float)
  : list (list bool) :=
  map (λ row, zip_with PrimFloat.leb row c) costs.

Definition lt_rows (costs : list (list float)) (c : list float)
  : list (list bool) :=
  map (λ row, zip_with PrimFloat.ltb row c) costs.

(** [np.all(m, axis=1)] and [np.any(m, axis=1)]. *)
Definition all_axis1 (m : list (list bool)) : list bool :=
  map (forallb (λ b, b)) m.

Definition any_axis1 (m : list (list bool)) : list bool :=
  map (existsb (λ b, b)) m.

(** [a & b] on boolean arrays of one shape. *)
Definition and (a b : list bool) : list bool := zip_with andb a b.

(** [np.any(a)]. *)
Definition any (a : list bool) : bool := existsb (λ b, b) a.

(** [a[i] = v]: raises [IndexError] out of range. *)
Definition setitem (a : list bool) (i : nat) (v : bool)
  : result (list bool) :=
  if decide (i < length a) then Return (<[i := v]> a)
  else Raise IndexError.

(** [enumerate(costs)]. *)
Definition enumerate {A : Type} (l : list A) : list (nat * A) :=
  imap (λ i x, (i, x)) l.

End np.

(** ** [src/policies/incentive_policies.py] *)

Definition mixed_policy (self : simulation) (actions : list float)
    (actors_priority avg_incomes water_pump avg_pump is_crisis
       water_flows quota DOE DCR : pyval) : result (list float) :=
  let actions := np.sub_scalar (np.astype_float actions) 0.5%float in
  Return (np.mul_scalar (np.neg actions) 5%float).

Definition fine_policy (self : simulation) (actions : list float)
    (actors_priority avg_incomes water_pump avg_pump is_crisis
       water_flows quota DOE DCR : pyval) : result (list float) :=
  let actions := np.sub_scalar (np.astype_float actions) 1%float in
  Return (np.mul_scalar (np.neg actions) 5%float).

Definition subvention_policy (self : simulation) (actions : list float)
    (actors_priority avg_incomes water_pump avg_pump is_crisis
       water_flows quota DOE DCR : pyval) : result (list float) :=
  let actions := np.astype_float actions in
  Return (np.mul_scalar (np.neg actions) 5%float).

Definition no_policy (self : simulation) (actions : list float)
    (actors_priority avg_incomes water_pump avg_pump is_crisis
       water_flows quota DOE DCR : pyval) : result (list float) :=
  np.zeros (nb_actors self).

(** The defaults of the two threshold parameters. *)
Definition DOE_default : pyval := PyInt 15.
Definition DCR_default : pyval := PyInt 10.

(** ** [src/utils.py] *)

(** The vector [np.all(costs <= c, axis=1) & np.any(costs < c, axis=1)]:
    entry [j] tells whether row [j] dominates the row [c]. *)
Definition dominated_mask (costs : list (list float)) (c : list float)
  : list bool :=
  np.and (np.all_axis1 (np.le_rows costs c))
         (np.any_axis1 (np.lt_rows costs c)).

(** [np.any(...)] of that vector: the right-hand side of the assignment
    in the loop, before the negation. *)
Definition some_row_dominates (costs : list (list float)) (c : list float)
  : bool :=
  np.any (dominated_mask costs c).

(** The [for i, c in enumerate(costs)] loop, over the rows left. *)
Fixpoint pareto_loop (costs : list (list float))
    (rows : list (nat * list float)) (is_efficient : list bool)
  : result (list bool) :=
  match rows with
  | [] => Return is_efficient
  | (i, c) :: rest =>
      is_efficient ← np.setitem is_efficient i
                       (negb (some_row_dominates costs c));
      pareto_loop costs rest is_efficient
  end.

Definition is_pareto_efficient (costs : list (list float))
  : result (list bool) :=
  let is_efficient := np.ones_bool (length costs) in
  pareto_loop costs (np.enumerate costs) is_efficient.

(** ** Vocabulary of the statements *)

(** A matrix of shape [(n, m)]. *)
Definition has_shape (costs : list (list float)) (n m : nat) : Prop :=
  length costs = n ∧ Forall (λ row, length row = m) costs.

(** [costs[j][col]]. *)
Definition entry (costs : list (list float)) (j col : nat) : float :=
  nth col (nth j costs []) 0%float.

(** Row [j] dominates row [i]: no worse in every one of the [m]
    objectives, better in one. *)
Definition dominates (costs : list (list float)) (m j i : nat) : Prop :=
  (∀ col, col < m → (entry costs j col <=? entry costs i col)%float = true)
  ∧ (∃ col, col < m ∧ (entry costs j col <? entry costs i col)%float = true).

(** The test one row of [dominated_mask] performs. *)
Definition row_dominates (row c : list float) : bool :=
  forallb (λ b, b) (zip_with PrimFloat.leb row c)
  && existsb (λ b, b) (zip_with PrimFloat.ltb row c).

(** Two floats hold one value: equal under [==], where the two zeros are
    equal, or both NaN. *)
Definition same_value (x y : float) : bool :=
  (x =? y)%float || (PrimFloat.is_nan x && PrimFloat.is_nan y).

(** Arrays equal entry by entry: under [==], and up to NaN. *)
Definition array_eq (a b : list float) : Prop :=
  Forall2 (λ x y, (x =? y)%float = true) a b.

Definition array_same (a b : list float) : Prop :=
  Forall2 (λ x y, same_value x y = true) a b.

Definition nan_free (a : list float) : Prop :=
  Forall (λ x, PrimFloat.is_nan x = false) a.

(** Some contextual vector has another length than the action vector. *)
Definition shape_mismatch (actions : list float) (context : list pyval)
  : Prop :=
  ∃ v k, v ∈ context ∧ pylen v = Some k ∧ k ≠ length actions.

(** Equality of binary64 values up to the sign of zero, on their
    specification. *)
Definition sf_same (x y : spec_float) : Prop :=
  match x, y with
  | S754_zero _, S754_zero _ => True
  | _, _ => x = y
  end.

Definition sf_finite (x : spec_float) : bool :=
  match x with
  | S754_zero _ | S754_finite _ _ _ => true
  | _ => false
  end.

(** ** The value of a binary64 number

    A finite binary64 number is an integer multiple of a power of two; its
    value is that rational.  The statements on rounding compare the value
    of what the code computes with the value of the exact formula. *)

Definition pow2 (e : Z) : Q := (2 ^ e)%Q.

Definition sf_val (x : spec_float) : Q :=
  match x with
  | S754_finite s m e => (inject_Z (cond_Zopp s (Z.pos m)) * pow2 e)%Q
  | _ => 0%Q
  end.

Definition float_val (x : float) : Q := sf_val (Prim2SF x).

(** [x] is a number: neither an infinity nor NaN. *)
Definition float_finite (x : float) : bool := sf_finite (Prim2SF x).

(** 2^-54, the unit in which the rounding errors are counted: a quarter
    of the distance between neighbouring binary64 numbers from 1 to 2. *)
Definition u54 : Q := 1 # 18014398509481984.

(** An action vector: every entry between 0 and 1. *)
Definition unit_actions (a : list float) : Prop :=
  Forall (λ x, (0 <=? x)%float = true ∧ (x <=? 1)%float = true) a.

(** What [shr_1] keeps when it shifts the mantissa [M] right: after the
    low bits worth [h] are gone, the mantissa [m] and the two bits [r]
    and [s] say where the remainder [ρ] stands against a half of [h]. *)
Definition loc_rel (ρ h : Z) (r s : bool) : Prop :=
  match r, s with
  | false, false => ρ = 0
  | false, true => 0 < 2 * ρ < h
  | true, false => 2 * ρ = h
  | true, true => h < 2 * ρ
  end%Z.

Definition shr_inv (M h : Z) (mrs : shr_record) : Prop :=
  (0 ≤ shr_m mrs)%Z
  ∧ ∃ ρ, (M = shr_m mrs * h + ρ)%Z ∧ (0 ≤ ρ < h)%Z
         ∧ loc_rel ρ h (shr_r mrs) (shr_s mrs).

(** ** Arrays in a store

    NumPy arrays are mutable objects.  To speak about which arrays a call
    writes to, the same functions are given over a store of arrays: every
    NumPy operation that builds an array allocates a new cell, and
    [a[i] = v] overwrites a cell in place. *)

Module store.

Definition loc : Type := positive.

Inductive cell : Type :=
  | FloatArr (a : list float)
  | FloatMat (m : list (list float))
  | BoolArr (a : list bool)
  | BoolMat (m : list (list bool)).

(** A reference is an array of its own or a view of one row of a
    matrix, as [enumerate(costs)] yields them. *)
Inductive ref : Type :=
  | Whole (l : loc)
  | RowOf (l : loc) (i : nat).

(** An argument of a call: a reference to an array or a scalar. *)
Inductive arg : Type :=
  | Ref (l : loc)
  | Imm (v : pyval).

Abbreviation M := (stateful (gmap loc cell)).

Definition alloc (c : cell) : M loc :=
  λ h, let l := fresh (dom h) in Return (l, <[l := c]> h).

Definition load (l : loc) : M cell :=
  λ h, match h !! l with
       | Some c => Return (c, h)
       | None => Raise ValueError
       end.

Definition write (l : loc) (c : cell) : M unit :=
  λ h, Return (tt, <[l := c]> h).

Definition load_float_arr (l : loc) : M (list float) :=
  c ← load l;
  match c with FloatArr a => mret a | _ => throw TypeError end.

Definition load_float_mat (l : loc) : M (list (list float)) :=
  c ← load l;
  match c with FloatMat m => mret m | _ => throw TypeError end.

Definition load_bool_arr (l : loc) : M (list bool) :=
  c ← load l;
  match c with BoolArr a => mret a | _ => throw TypeError end.

Definition load_bool_mat (l : loc) : M (list (list bool)) :=
  c ← load l;
  match c with BoolMat m => mret m | _ => throw TypeError end.

(** Reading a one-dimensional operand through a reference. *)
Definition read_row (r : ref) : M (list float) :=
  match r with
  | Whole l => load_float_arr l
  | RowOf l i =>
      m ← load_float_mat l;
      match m !! i with
      | Some row => mret row
      | None => throw IndexError
      end
  end.

(** The array operations: operands are read, the result is a new
    array. *)
Definition astype_float (a : loc) : M loc :=
  v ← load_float_arr a; alloc (FloatArr (np.astype_float v)).

Definition sub_scalar (a : loc) (c : float) : M loc :=
  v ← load_float_arr a; alloc (FloatArr (np.sub_scalar v c)).

Definition neg (a : loc) : M loc :=
  v ← load_float_arr a; alloc (FloatArr (np.neg v)).

Definition mul_scalar (a : loc) (c : float) : M loc :=
  v ← load_float_arr a; alloc (FloatArr (np.mul_scalar v c)).

Definition zeros (n : Z) : M loc :=
  match np.zeros n with
  | Return v => alloc (FloatArr v)
  | Raise e => throw e
  end.

Definition ones_bool (n : nat) : M loc :=
  alloc (BoolArr (np.ones_bool n)).

Definition le_rows (costs : loc) (c : ref) : M loc :=
  m ← load_float_mat costs; v ← read_row c;
  alloc (BoolMat (np.le_rows m v)).

Definition lt_rows (costs : loc) (c : ref) : M loc :=
  m ← load_float_mat costs; v ← read_row c;
  alloc (BoolMat (np.lt_rows m v)).

Definition all_axis1 (b : loc) : M loc :=
  m ← load_bool_mat b; alloc (BoolArr (np.all_axis1 m)).

Definition any_axis1 (b : loc) : M loc :=
  m ← load_bool_mat b; alloc (BoolArr (np.any_axis1 m)).

Definition and (a b : loc) : M loc :=
  x ← load_bool_arr a; y ← load_bool_arr b;
  alloc (BoolArr (np.and x y)).

Definition any (a : loc) : M bool :=
  x ← load_bool_arr a; mret (np.any x).

(** [a[i] = v]: the one operation that writes into an existing array. *)
Definition setitem (a : loc) (i : nat) (v : bool) : M unit :=
  x ← load_bool_arr a;
  match np.setitem x i v with
  | Return x' => write a (BoolArr x')
  | Raise e => throw e
  end.

(** [costs.shape[0]]. *)
Definition shape0 (costs : loc) : M nat :=
  m ← load_float_mat costs; mret (length m).

(** *** [incentive_policies.py] over the store *)

Definition mixed_policy (self : simulation) (actions : loc)
    (actors_priority avg_incomes water_pump avg_pump is_crisis
       water_flows quota DOE DCR : arg) : M loc :=
  t ← astype_float actions;
  actions ← sub_scalar t 0.5%float;
  t ← neg actions;
  mul_scalar t 5%float.

Definition fine_policy (self : simulation) (actions : loc)
    (actors_priority avg_incomes water_pump avg_pump is_crisis
       water_flows quota DOE DCR : arg) : M loc :=
  t ← astype_float actions;
  actions ← sub_scalar t 1%float;
  t ← neg actions;
  mul_scalar t 5%float.

Definition subvention_policy (self : simulation) (actions : loc)
    (actors_priority avg_incomes water_pump avg_pump is_crisis
       water_flows quota DOE DCR : arg) : M loc :=
  actions ← astype_float actions;
  t ← neg actions;
  mul_scalar t 5%float.

Definition no_policy (self : simulation) (actions : loc)
    (actors_priority avg_incomes water_pump avg_pump is_crisis
       water_flows quota DOE DCR : arg) : M loc :=
  zeros (nb_actors self).

(** *** [utils.py] over the store *)

(** One iteration of the loop: [c] is the view of row [i]. *)
Definition pareto_step (costs is_efficient : loc) (i : nat) : M unit :=
  let c := RowOf costs i in
  le ← le_rows costs c;
  al ← all_axis1 le;
  lt ← lt_rows costs c;
  an ← any_axis1 lt;
  d ← and al an;
  b ← any d;
  setitem is_efficient i (negb b).

Fixpoint pareto_loop (costs is_efficient : loc) (rows : list nat)
  : M unit :=
  match rows with
  | [] => mret tt
  | i :: rest =>
      _ ← pareto_step costs is_efficient i;
      pareto_loop costs is_efficient rest
  end.

Definition is_pareto_efficient (costs : loc) : M loc :=
  n ← shape0 costs;
  is_efficient ← ones_bool n;
  _ ← pareto_loop costs is_efficient (seq 0 n);
  mret is_efficient.

End store.

(** A computation runs to a value and a state that satisfy [Q]. *)
Definition runs {S A : Type} (c : stateful S A) (s : S)
    (Q : A → S → Prop) : Prop :=
  ∃ a s', c s = Return (a, s') ∧ Q a s'.

(** Every array of the store [h] is in [h'] with the values it had. *)
Definition unchanged (h h' : gmap store.loc store.cell) : Prop :=
  ∀ l c, h !! l = Some c → h' !! l = Some c.

(** The call [c] returns an array that was not in the store before, holding
    [v], and leaves every array of the store as it was. *)
Definition returns_fresh (c : store.M store.loc)
    (h : gmap store.loc store.cell) (v : store.cell) : Prop :=
  runs c h (λ l h', h !! l = None ∧ h' !! l = Some v ∧ unchanged h h').

(** The call over the store does what the function on values does: the
    result in a new array, or the same exception. *)
Definition mirrors (c : store.M store.loc)
    (h : gmap store.loc store.cell) (r : result store.cell) : Prop :=
  match r with
  | Return v => returns_fresh c h v
  | Raise e => c h = Raise e
  end.

Definition float_array (r : result (list float)) : result store.cell :=
  match r with
  | Return a => Return (store.FloatArr a)
  | Raise e => Raise e
  end.

Definition bool_array (r : result (list bool)) : result store.cell :=
  match r with
  | Return a => Return (store.BoolArr a)
  | Raise e => Raise e
  end.

(** A store with a cost matrix and an action vector. *)
Definition example_store : gmap store.loc store.cell :=
  <[1%positive := store.FloatMat [[1; 1]; [2; 2]; [1; 2]]%float]>
    {[2%positive := store.FloatArr [0; 0.5; 1]%float]}.

(** ** [src/utils/helpers.py]

    The function talks to the operating system through [os.path.dirname],
    [os.path.exists], [os.makedirs] and the figure's [savefig].  The file
    system is a set of directories and a map from file paths to figures.
    Of [os.makedirs] the model fixes what it does with the empty name;
    what it does with any other name, and what [savefig] does, are
    parameters of the model. *)

Module os.

Definition is_sep (c : ascii) : bool := Ascii.eqb c "/"%char.

Fixpoint drop_while {A : Type} (f : A → bool) (l : list A) : list A :=
  match l with
  | [] => []
  | x :: l' => if f x then drop_while f l' else l
  end.

(** [posixpath.dirname]: the text up to the last separator, without
    trailing separators unless it consists of separators only. *)
Definition dirname (p : string) : string :=
  let rhead := drop_while (λ c, negb (is_sep c))
                 (rev (list_ascii_of_string p)) in
  if forallb is_sep rhead then string_of_list_ascii (rev rhead)
  else string_of_list_ascii (rev (drop_while is_sep rhead)).

(** The proper ancestors of a path, nearest first. *)
Fixpoint parents (fuel : nat) (p : string) : list string :=
  match fuel with
  | O => []
  | S fuel' =>
      let d := dirname p in
      if decide (d = ""%string ∨ d = p) then [] else d :: parents fuel' d
  end.

(** The components of a path: the texts between its separators. *)
Fixpoint split_path (cs : list ascii) : list (list ascii) :=
  match cs with
  | [] => [[]]
  | c :: cs' =>
      if is_sep c then [] :: split_path cs'
      else match split_path cs' with
           | [] => [[c]]
           | w :: ws => (c :: w) :: ws
           end
  end.

Definition components (p : string) : list string :=
  map string_of_list_ascii (split_path (list_ascii_of_string p)).

(** A component that names an entry of its directory and nothing else:
    not empty, not [.] or [..], without the NUL character and of at most
    255 bytes. *)
Definition plain_component (c : string) : bool :=
  negb (bool_decide (c ∈ [""; "."; ".."]%string))
  && forallb (λ ch, negb (Ascii.eqb ch Ascii.zero)) (list_ascii_of_string c)
  && (String.length c <=? 255)%nat.

(** A relative path of plain components, shorter than [PATH_MAX]: such a
    path names the same entry as any other path only if the two are the
    same text. *)
Definition plain (p : string) : bool :=
  forallb plain_component (components p) && (String.length p <? 4096)%nat.

Record filesystem (figure : Type) : Type := {
  dirs : gset string;
  files : gmap string figure
}.

Arguments dirs {figure} _.
Arguments files {figure} _.

Section calls.
Context {figure : Type}.

Definition is_file (fs : filesystem figure) (p : string) : bool :=
  bool_decide (is_Some (files fs !! p)).

Definition is_dir (fs : filesystem figure) (p : string) : bool :=
  bool_decide (p ∈ dirs fs).

(** [os.path.exists]: the empty path names nothing. *)
Definition path_exists (p : string) : stateful (filesystem figure) bool :=
  λ fs, Return (if decide (p = ""%string) then false
                else is_dir fs p || is_file fs p, fs).

(** What the operating system does for [os.makedirs] with a name that is
    not empty. *)
Variable mkdirs : string → stateful (filesystem figure) unit.

(** What the figure does for [savefig]. *)
Variable savefig : figure → string → stateful (filesystem figure) unit.

(** [os.makedirs(name)]: the empty name is refused with
    [FileNotFoundError]. *)
Definition makedirs (name : string) : stateful (filesystem figure) unit :=
  λ fs,
    if decide (name = ""%string) then Raise FileNotFoundError
    else mkdirs name fs.

Definition save_or_create (plt : figure) (save_path : string)
  : stateful (filesystem figure) unit :=
  there ← path_exists (dirname save_path);
  _ ← (if negb there then makedirs (dirname save_path) else mret tt);
  savefig plt save_path.

End calls.

End os.

(** What [os.makedirs] promises: when it returns, the directory is
    there. *)
Definition makes_the_directory {figure : Type}
    (mkdirs : string → stateful (os.filesystem figure) unit) : Prop :=
  ∀ (d : string) fs fs1,
    mkdirs d fs = Return (tt, fs1) → os.is_dir fs1 d = true.

(** What [savefig] is expected to respect: it removes no directory and no
    file. *)
Definition removes_nothing {figure : Type}
    (savefig : figure → string → stateful (os.filesystem figure) unit)
  : Prop :=
  ∀ fig (p q : string) fs1 fs2,
    savefig fig p fs1 = Return (tt, fs2) →
    os.is_dir fs1 q || os.is_file fs1 q = true →
    os.is_dir fs2 q || os.is_file fs2 q = true.

(** A file system with the directory [out] and no file, and an operating
    system and a figure for the examples: [example_mkdirs] adds the
    directory and its ancestors, [example_savefig] writes into a directory
    that is there. *)
Definition example_fs : os.filesystem nat :=
  {| os.dirs := {["out"%string]}; os.files := ∅ |}.

Definition example_mkdirs (name : string)
  : stateful (os.filesystem nat) unit :=
  λ fs,
    if os.is_dir fs name || os.is_file fs name then Raise FileExistsError
    else Return (tt, {| os.dirs := os.dirs fs ∪ {[name]}
                          ∪ list_to_set (os.parents (String.length name) name);
                        os.files := os.files fs |}).

Definition example_savefig (fig : nat) (path : string)
  : stateful (os.filesystem nat) unit :=
  λ fs,
    if os.is_dir fs (os.dirname path)
    then Return (tt, {| os.dirs := os.dirs fs;
                        os.files := <[path := fig]> (os.files fs) |})
    else Raise FileNotFoundError.


(** ** Order and sign of binary64 values *)

(** A key that orders the binary64 values other than NaN as [<=] does:
    the class of the value, then exponent and mantissa, negated for
    negative numbers. *)
Definition sf_key (x : spec_float) : Z * Z * Z :=
  match x with
  | S754_nan => (0, 0, 0)%Z
  | S754_zero _ => (0, 0, 0)%Z
  | S754_infinity s => (if s then -2 else 2, 0, 0)%Z
  | S754_finite s m e =>
      if s then (-1, - e, Z.neg m)%Z else (1, e, Z.pos m)%Z
  end.

Definition key_lt (a b : Z * Z * Z) : Prop :=
  (a.1.1 < b.1.1 ∨ (a.1.1 = b.1.1 ∧
     (a.1.2 < b.1.2 ∨ (a.1.2 = b.1.2 ∧ a.2 < b.2))))%Z.

Definition key_le (a b : Z * Z * Z) : Prop :=
  (a.1.1 < b.1.1 ∨ (a.1.1 = b.1.1 ∧
     (a.1.2 < b.1.2 ∨ (a.1.2 = b.1.2 ∧ a.2 ≤ b.2))))%Z.

(** [x] is a zero, or a number or an infinity of sign [s] ([true] is
    negative). *)
Definition sf_has_sign (s : bool) (x : spec_float) : Prop :=
  match x with
  | S754_zero _ => True
  | S754_infinity s' | S754_finite s' _ _ => s' = s
  | S754_nan => False
  end.

(** ** [load_parameters_from_yaml] of [src/utils.py]

    The function reads a file through [open] in a [with] block, has the
    YAML library parse it and takes the entry [parameters] of the
    document.  The parser is a parameter.  A document is a scalar, a
    sequence or a mapping; a mapping is a dictionary, here with strings
    for keys. *)

Module yaml.

#[warnings="-register-all"] Inductive value : Type :=
  | Null
  | Bool (b : bool)
  | Int (n : Z)
  | Float (x : float)
  | Str (s : string)
  | Seq (l : list value)
  | Map (m : gmap string value).

(** What the loader can raise: one of the built-in exceptions, a
    [KeyError] with its key, or the parser's [YAMLError]. *)
Inductive error : Type :=
  | Builtin (e : exn)
  | KeyError (key : string)
  | YAMLError.

(** The files as text, and the paths of the files that are open. *)
Record world : Type := {
  disk : os.filesystem string;
  open_files : list string
}.

(** A computation returns or raises, and leaves a world in both cases. *)
Definition io (A : Type) : Type := world → (error + A) * world.

#[export] Instance io_ret : MRet io := λ A a w, (inr a, w).

#[export] Instance io_bind : MBind io :=
  λ A B k c w, match c w with
               | (inr a, w') => k a w'
               | (inl e, w') => (inl e, w')
               end.

Definition raise {A : Type} (e : error) : io A := λ w, (inl e, w).

(** [open(path, "r")]: the handle is the path of the open file.  A path
    that names no file is refused: with [NotADirectoryError] when it
    leads through a regular file, with [FileNotFoundError] otherwise. *)
Definition open_read (path : string) : io string :=
  λ w,
    if os.is_dir (disk w) path then (inl (Builtin IsADirectoryError), w)
    else if os.is_file (disk w) path
    then (inr path, {| disk := disk w; open_files := path :: open_files w |})
    else if existsb (os.is_file (disk w))
              (os.parents (String.length path) path)
    then (inl (Builtin NotADirectoryError), w)
    else (inl (Builtin FileNotFoundError), w).

Fixpoint remove_first (p : string) (l : list string) : list string :=
  match l with
  | [] => []
  | q :: l' => if decide (p = q) then l' else q :: remove_first p l'
  end.

(** [file.close()]. *)
Definition close (file : string) : io unit :=
  λ w, (inr tt, {| disk := disk w;
                   open_files := remove_first file (open_files w) |}).

(** [file.read()]. *)
Definition read (file : string) : io string :=
  λ w, match os.files (disk w) !! file with
       | Some text => (inr text, w)
       | None => (inl (Builtin ValueError), w)
       end.

(** [with open(path, "r") as file: body]: the file is closed when the body
    returns and when it raises. *)
Definition with_open {A : Type} (path : string) (body : string → io A)
  : io A :=
  λ w, match open_read path w with
       | (inl e, w') => (inl e, w')
       | (inr file, w') =>
           let '(r, w'') := body file w' in
           (r, snd (close file w''))
       end.

(** [data[key]]: a mapping is looked up; nothing else takes a string for
    subscript. *)
Definition getitem (data : value) (key : string) : io value :=
  match data with
  | Map m =>
      match m !! key with
      | Some v => mret v
      | None => raise (KeyError key)
      end
  | _ => raise (Builtin TypeError)
  end.

Section loader.

(** The parser of the YAML library: the document of a text, or none when
    the text is not valid YAML. *)
Variable parse : string → option value.

(** [yaml.safe_load(file)]. *)
Definition safe_load (file : string) : io value :=
  text ← read file;
  match parse text with
  | Some data => mret data
  | None => raise YAMLError
  end.

Definition load_parameters_from_yaml (file_path : string) : io value :=
  data ← with_open file_path (λ file, safe_load file);
  getitem data "parameters".

End loader.

End yaml.

(** A parser that knows three texts, and a world with a file for each. *)
Definition example_parse (text : string) : option yaml.value :=
  if decide (text = "parameters: {DOE: 15, DCR: 10}"%string)
  then Some (yaml.Map {["parameters"%string :=
               yaml.Map (<["DOE"%string := yaml.Int 15]>
                           {["DCR"%string := yaml.Int 10]})]})
  else if decide (text = "DOE: 15"%string)
  then Some (yaml.Map {["DOE"%string := yaml.Int 15]})
  else if decide (text = ""%string) then Some yaml.Null
  else None.

Definition example_world : yaml.world :=
  {| yaml.disk :=
       {| os.dirs := {["conf"%string]};
          os.files :=
            <["conf/params.yaml"%string
              := "parameters: {DOE: 15, DCR: 10}"%string]>
              (<["conf/flat.yaml"%string := "DOE: 15"%string]>
                 {["conf/empty.yaml"%string := ""%string]}) |};
     yaml.open_files := [] |}.

(** * Properties *)

(** ** Binary64 arithmetic

    Facts about the operations the code uses, from the specification of
    the primitive floats. *)

Section binary64.

Lemma sf_same_refl x : sf_same x x.
Proof. by destruct x. Qed.

Lemma sf_same_sym x y : sf_same x y → sf_same y x.
Proof. destruct x, y; simpl; try done; by intros [= ->]. Qed.

Lemma SFcompare_refl x : x ≠ S754_nan → SFcompare x x = Some Eq.
Proof.
  destruct x as [s|s| |s m e]; try done; simpl.
  - by destruct s.
  - intros _. rewrite Z.compare_refl.
    replace (Pos.compare_cont Eq m m) with Eq
      by (symmetry; apply Pos.compare_cont_refl).
    by destruct s.
Qed.

Lemma is_nan_spec x : PrimFloat.is_nan x = true ↔ Prim2SF x = S754_nan.
Proof.
  unfold PrimFloat.is_nan. rewrite FloatAxioms.eqb_spec. unfold SFeqb.
  destruct (Prim2SF x) as [s|s| |s m e] eqn:E; [| |done|].
  all: rewrite SFcompare_refl by done; done.
Qed.

Lemma is_nan_false_spec x : PrimFloat.is_nan x = false ↔ Prim2SF x ≠ S754_nan.
Proof. rewrite <- is_nan_spec. by destruct (PrimFloat.is_nan x). Qed.

Lemma same_value_of_sf (a b : float) :
  sf_same (Prim2SF a) (Prim2SF b) → same_value a b = true.
Proof.
  unfold same_value, PrimFloat.is_nan. rewrite !FloatAxioms.eqb_spec.
  unfold SFeqb. intros H.
  destruct (Prim2SF a) as [s|s| |s m e] eqn:Ha,
           (Prim2SF b) as [s'|s'| |s' m' e'] eqn:Hb;
    simpl in H; simplify_eq; try done.
  all: by rewrite SFcompare_refl.
Qed.

Lemma same_value_eqb (a b : float) :
  same_value a b = true → PrimFloat.is_nan a = false → (a =? b)%float = true.
Proof.
  unfold same_value. intros H Ha. rewrite Ha in H.
  by rewrite andb_false_l, orb_false_r in H.
Qed.

Lemma ltb_irrefl (x : float) : (x <? x)%float = false.
Proof.
  rewrite ltb_spec. unfold SFltb.
  destruct (Prim2SF x) eqn:E; try done; by rewrite SFcompare_refl.
Qed.

Lemma leb_nan_r (x y : float) :
  PrimFloat.is_nan y = true → (x <=? y)%float = false.
Proof.
  rewrite is_nan_spec, leb_spec. intros ->. unfold SFleb.
  by destruct (Prim2SF x).
Qed.

(** The sign of a rounded result is the sign given; the magnitude does not
    depend on it. *)
Lemma binary_round_aux_opp s m e l :
  SFopp (binary_round_aux prec emax s m e l)
  = binary_round_aux prec emax (negb s) m e l.
Proof.
  unfold binary_round_aux.
  destruct (shr_fexp _ _ _ _ _) as [mrs' e'].
  destruct (shr_fexp _ _ _ _ _) as [mrs'' e''].
  destruct (shr_m mrs''); try done.
  by destruct (_ <=? _)%Z.
Qed.

Lemma binary_round_opp s m e :
  SFopp (binary_round prec emax s m e) = binary_round prec emax (negb s) m e.
Proof.
  unfold binary_round. destruct (shl_align _ _ _) as [mz ez].
  apply binary_round_aux_opp.
Qed.

Lemma binary_normalize_opp m e :
  sf_same (binary_normalize prec emax (- m) e false)
          (SFopp (binary_normalize prec emax m e false)).
Proof.
  destruct m; simpl; try done; rewrite binary_round_opp; apply sf_same_refl.
Qed.

Lemma SFmul_comm x y : SF64mul x y = SF64mul y x.
Proof.
  unfold SF64mul.
  destruct x as [s|s| |s m e], y as [s'|s'| |s' m' e']; simpl; try done;
    try by rewrite xorb_comm.
  by rewrite xorb_comm, Pos.mul_comm, Z.add_comm.
Qed.

Lemma SFmul_opp_l x y : SF64mul (SFopp x) y = SFopp (SF64mul x y).
Proof.
  unfold SF64mul.
  destruct x as [s|s| |s m e], y as [s'|s'| |s' m' e']; simpl; try done;
    try by destruct s, s'.
  rewrite binary_round_aux_opp. by destruct s, s'.
Qed.

Lemma SFmul_same_l x x' y :
  sf_same x x' → sf_same (SF64mul x y) (SF64mul x' y).
Proof.
  unfold SF64mul.
  destruct x as [s|s| |s m e], x' as [t|t| |t m2 e2]; simpl; try done;
    try (intros [= <-]; apply sf_same_refl);
    try (intros [= <- <- <-]; apply sf_same_refl).
  intros _. by destruct y.
Qed.

(** Swapping the operands of a subtraction negates the result. *)
Lemma SFsub_swap x y : sf_same (SF64sub y x) (SFopp (SF64sub x y)).
Proof.
  unfold SF64sub.
  destruct x as [s|s| |s m e], y as [s'|s'| |s' m' e']; simpl; try done;
    try (by destruct s, s').
  rewrite Z.min_comm.
  match goal with
  | |- sf_same (binary_normalize _ _ ?a _ _)
               (SFopp (binary_normalize _ _ ?b _ _)) =>
      replace a with (- b)%Z by lia
  end.
  apply binary_normalize_opp.
Qed.

(** Rounding a non-negative mantissa never gives NaN. *)
Lemma iter_pos_inv {A} (P : A → Prop) (f : A → A) :
  (∀ x, P x → P (f x)) → ∀ n x, P x → P (SpecFloat.iter_pos f n x).
Proof.
  intros Hf. induction n as [n IH|n IH|]; intros x Hx; simpl; auto.
Qed.

Lemma shr_1_nonneg mrs : (0 ≤ shr_m mrs)%Z → (0 ≤ shr_m (shr_1 mrs))%Z.
Proof.
  destruct mrs as [m r s]; simpl. destruct m as [|p|p]; simpl; try lia.
  destruct p; simpl; lia.
Qed.

Lemma shr_nonneg mrs e n :
  (0 ≤ shr_m mrs)%Z → (0 ≤ shr_m (fst (shr mrs e n)))%Z.
Proof.
  intros H. unfold shr. destruct n; simpl; try done.
  by apply iter_pos_inv; [apply shr_1_nonneg|].
Qed.

Lemma shr_fexp_nonneg m e l :
  (0 ≤ m)%Z → (0 ≤ shr_m (fst (shr_fexp prec emax m e l)))%Z.
Proof.
  intros H. unfold shr_fexp. apply shr_nonneg. by destruct l as [|[]].
Qed.

Lemma round_nearest_even_nonneg m l :
  (0 ≤ m)%Z → (0 ≤ round_nearest_even m l)%Z.
Proof.
  intros H. destruct l as [|[]]; simpl; try done;
    [destruct (Z.even m)|]; lia.
Qed.

Lemma binary_round_aux_not_nan s m e l :
  (0 ≤ m)%Z → binary_round_aux prec emax s m e l ≠ S754_nan.
Proof.
  intros H. unfold binary_round_aux.
  pose proof (shr_fexp_nonneg m e l H) as H1.
  destruct (shr_fexp prec emax m e l) as [mrs' e']. simpl in H1.
  pose proof (shr_fexp_nonneg _ e' loc_Exact
    (round_nearest_even_nonneg _ (loc_of_shr_record mrs') H1)) as H2.
  destruct (shr_fexp _ _ _ _ _) as [mrs'' e'']. simpl in H2.
  destruct (shr_m mrs''); try done; try lia. by destruct (_ <=? _)%Z.
Qed.

Lemma binary_normalize_not_nan m e sz :
  binary_normalize prec emax m e sz ≠ S754_nan.
Proof.
  destruct m; simpl; try done; unfold binary_round;
    destruct (shl_align _ _ _); by apply binary_round_aux_not_nan.
Qed.

Lemma SFsub_not_nan x k :
  x ≠ S754_nan → sf_finite k = true → SF64sub x k ≠ S754_nan.
Proof.
  unfold SF64sub.
  destruct x as [s|s| |s m e], k as [s'|s'| |s' m' e']; simpl; try done.
  - by destruct s, s'.
  - intros _ _. apply binary_normalize_not_nan.
Qed.

Lemma SFmul_not_nan x c :
  x ≠ S754_nan → sf_finite c = true → c ≠ S754_zero false →
  c ≠ S754_zero true → SF64mul x c ≠ S754_nan.
Proof.
  unfold SF64mul.
  destruct x as [s|s| |s m e], c as [s'|s'| |s' m' e']; simpl; try done.
  - by destruct s'.
  - intros _ _ _ _. by apply binary_round_aux_not_nan.
Qed.

Lemma SFopp_not_nan x : x ≠ S754_nan → SFopp x ≠ S754_nan.
Proof. by destruct x. Qed.

(** [-x * c] and [(-c) * x] are the same float. *)
Lemma float_neg_mul (x c : float) : (- x * c = (- c) * x)%float.
Proof.
  apply Prim2SF_inj.
  rewrite !mul_spec, !opp_spec, !SFmul_opp_l. f_equal. apply SFmul_comm.
Qed.

(** [-(x - k) * c] and [c * (k - x)] hold the same value. *)
Lemma float_neg_sub_mul (x k c : float) :
  same_value (- (x - k) * c) (c * (k - x)) = true.
Proof.
  apply same_value_of_sf.
  rewrite !mul_spec, !opp_spec, !sub_spec.
  rewrite (SFmul_comm (Prim2SF c)).
  apply SFmul_same_l, sf_same_sym, SFsub_swap.
Qed.

(** NaN goes through the affine formula, and nothing else becomes NaN. *)
Lemma float_affine_nan (x k c : float) :
  PrimFloat.is_nan x = true → PrimFloat.is_nan (- (x - k) * c) = true.
Proof.
  rewrite !is_nan_spec, mul_spec, opp_spec, sub_spec. by intros ->.
Qed.

Lemma float_scale_nan (x c : float) :
  PrimFloat.is_nan x = true → PrimFloat.is_nan (- x * c) = true.
Proof.
  rewrite !is_nan_spec, mul_spec, opp_spec. by intros ->.
Qed.

Lemma float_affine_not_nan (x k c : float) :
  sf_finite (Prim2SF k) = true → sf_finite (Prim2SF c) = true →
  (c =? 0)%float = false →
  PrimFloat.is_nan x = false → PrimFloat.is_nan (- (x - k) * c) = false.
Proof.
  rewrite !is_nan_false_spec, mul_spec, opp_spec, sub_spec.
  rewrite FloatAxioms.eqb_spec.
  intros Hk Hc Hz Hx.
  apply SFmul_not_nan; [by apply SFopp_not_nan, SFsub_not_nan|done|..];
    intros E; by rewrite E in Hz.
Qed.

Lemma float_scale_not_nan (x c : float) :
  sf_finite (Prim2SF c) = true → (c =? 0)%float = false →
  PrimFloat.is_nan x = false → PrimFloat.is_nan (- x * c) = false.
Proof.
  rewrite !is_nan_false_spec, mul_spec, opp_spec.
  rewrite FloatAxioms.eqb_spec.
  intros Hc Hz Hx.
  apply SFmul_not_nan; [by apply SFopp_not_nan|done|..];
    intros E; by rewrite E in Hz.
Qed.

End binary64.

(** ** The incentive policies *)

Section policies.

Variable self : simulation.
Variables actors_priority avg_incomes water_pump avg_pump is_crisis
  water_flows quota DOE DCR : pyval.

Lemma subvention_policy_eq (a : list float) :
  subvention_policy self a actors_priority avg_incomes water_pump avg_pump
    is_crisis water_flows quota DOE DCR
  = Return (map (λ x, (- x * 5)%float) a).
Proof.
  unfold subvention_policy, np.mul_scalar, np.neg, np.astype_float.
  by rewrite !map_map.
Qed.

Lemma fine_policy_eq (a : list float) :
  fine_policy self a actors_priority avg_incomes water_pump avg_pump
    is_crisis water_flows quota DOE DCR
  = Return (map (λ x, (- (x - 1) * 5)%float) a).
Proof.
  unfold fine_policy, np.mul_scalar, np.neg, np.sub_scalar, np.astype_float.
  by rewrite !map_map.
Qed.

Lemma mixed_policy_eq (a : list float) :
  mixed_policy self a actors_priority avg_incomes water_pump avg_pump
    is_crisis water_flows quota DOE DCR
  = Return (map (λ x, (- (x - 0.5) * 5)%float) a).
Proof.
  unfold mixed_policy, np.mul_scalar, np.neg, np.sub_scalar, np.astype_float.
  by rewrite !map_map.
Qed.

Lemma array_same_map (f g : float → float) (a : list float) :
  (∀ x, same_value (f x) (g x) = true) → array_same (map f a) (map g a).
Proof.
  intros H. unfold array_same. induction a; simpl; constructor; auto.
Qed.

Lemma array_eq_map (f g : float → float) (a : list float) :
  (∀ x, PrimFloat.is_nan x = false → (f x =? g x)%float = true) →
  nan_free a → array_eq (map f a) (map g a).
Proof.
  intros H. unfold array_eq, nan_free.
  induction 1; simpl; constructor; auto.
Qed.

Lemma same_value_refl (x : float) : same_value x x = true.
Proof. apply same_value_of_sf, sf_same_refl. Qed.

(** C2. For every action vector [a], [subvention_policy] returns [-5*a],
    [fine_policy] returns [5*(1-a)] and [mixed_policy] returns
    [5*(0.5-a)], entry by entry and so with the length and the order of
    [a]: the entries hold the same values, and are equal under [==] when
    [a] has no NaN. *)
Theorem policies_compute_affine_formulas (a : list float) :
  (∃ out, subvention_policy self a actors_priority avg_incomes water_pump
            avg_pump is_crisis water_flows quota DOE DCR = Return out
     ∧ length out = length a
     ∧ array_same out (np.rmul_scalar (-5)%float a)
     ∧ (nan_free a → array_eq out (np.rmul_scalar (-5)%float a)))
  ∧ (∃ out, fine_policy self a actors_priority avg_incomes water_pump
              avg_pump is_crisis water_flows quota DOE DCR = Return out
       ∧ length out = length a
       ∧ array_same out (np.rmul_scalar 5%float (np.rsub_scalar 1%float a))
       ∧ (nan_free a →
          array_eq out (np.rmul_scalar 5%float (np.rsub_scalar 1%float a))))
  ∧ (∃ out, mixed_policy self a actors_priority avg_incomes water_pump
              avg_pump is_crisis water_flows quota DOE DCR = Return out
       ∧ length out = length a
       ∧ array_same out (np.rmul_scalar 5%float (np.rsub_scalar 0.5%float a))
       ∧ (nan_free a →
          array_eq out
            (np.rmul_scalar 5%float (np.rsub_scalar 0.5%float a)))).
Proof.
  unfold np.rmul_scalar, np.rsub_scalar. split_and!.
  - eexists. split; [apply subvention_policy_eq|].
    split_and!; [by rewrite length_map| |].
    + apply array_same_map. intros x.
      replace (-5)%float with (PrimFloat.opp 5) by reflexivity.
      rewrite <- (float_neg_mul x 5).
      apply same_value_refl.
    + apply array_eq_map. intros x Hx.
      replace (-5)%float with (PrimFloat.opp 5) by reflexivity.
      rewrite <- (float_neg_mul x 5).
      apply same_value_eqb; [apply same_value_refl|].
      apply float_scale_not_nan; [by vm_compute..|done].
  - eexists. split; [apply fine_policy_eq|].
    rewrite map_map. split_and!; [by rewrite length_map| |].
    + apply array_same_map. intros x. apply float_neg_sub_mul.
    + apply array_eq_map. intros x Hx.
      apply same_value_eqb; [apply float_neg_sub_mul|].
      apply float_affine_not_nan; [by vm_compute..|done].
  - eexists. split; [apply mixed_policy_eq|].
    rewrite map_map. split_and!; [by rewrite length_map| |].
    + apply array_same_map. intros x. apply float_neg_sub_mul.
    + apply array_eq_map. intros x Hx.
      apply same_value_eqb; [apply float_neg_sub_mul|].
      apply float_affine_not_nan; [by vm_compute..|done].
Qed.

(** C3. When the simulation has as many actors as the action vector has
    entries, [no_policy] returns the zero vector of that length, whatever
    the actions are. *)
Theorem no_policy_returns_zeros (a : list float) :
  nb_actors self = Z.of_nat (length a) →
  no_policy self a actors_priority avg_incomes water_pump avg_pump
    is_crisis water_flows quota DOE DCR
  = Return (replicate (length a) 0%float).
Proof.
  intros Hn. unfold no_policy, np.zeros. rewrite Hn.
  destruct (Z.ltb_spec (Z.of_nat (length a)) 0); [lia|].
  by rewrite Nat2Z.id.
Qed.

(** C4, as the code has it. The policies do not look at the shapes of the
    contextual vectors: whatever their lengths, [fine_policy],
    [mixed_policy] and [subvention_policy] return an adjustment vector
    with one entry per action, and [no_policy] raises only for a negative
    actor count. *)
Theorem policies_accept_any_context_shape (a : list float) :
  (∃ out, fine_policy self a actors_priority avg_incomes water_pump
            avg_pump is_crisis water_flows quota DOE DCR = Return out
     ∧ length out = length a)
  ∧ (∃ out, mixed_policy self a actors_priority avg_incomes water_pump
              avg_pump is_crisis water_flows quota DOE DCR = Return out
       ∧ length out = length a)
  ∧ (∃ out, subvention_policy self a actors_priority avg_incomes water_pump
              avg_pump is_crisis water_flows quota DOE DCR = Return out
       ∧ length out = length a)
  ∧ (raises (no_policy self a actors_priority avg_incomes water_pump
               avg_pump is_crisis water_flows quota DOE DCR)
     ↔ (nb_actors self < 0)%Z).
Proof.
  split_and!;
    [eexists; (split; [first [apply fine_policy_eq | apply mixed_policy_eq
                             | apply subvention_policy_eq]
                      | by rewrite length_map])..|].
  unfold no_policy, np.zeros.
  destruct (Z.ltb_spec (nb_actors self) 0); simpl; split; try done; lia.
Qed.

End policies.

Lemma no_policy_returns_zeros_witness :
  nb_actors {| nb_actors := 3 |} = Z.of_nat (length [0; 0.5; 1]%float)
  ∧ no_policy {| nb_actors := 3 |} [0; 0.5; 1]%float
      PyNone PyNone PyNone PyNone PyNone PyNone PyNone
      DOE_default DCR_default
    = Return [0; 0; 0]%float.
Proof.
  split; [reflexivity|].
  apply (no_policy_returns_zeros {| nb_actors := 3 |}
           PyNone PyNone PyNone PyNone PyNone PyNone PyNone
           DOE_default DCR_default [0; 0.5; 1]%float).
  reflexivity.
Defined.

(** C4 fails on the code: with three priorities for two actions the calls
    return, and no call of the three affine policies raises, whatever the
    lengths of the contextual vectors. *)
Lemma shape_mismatch_is_not_reported :
  fine_policy {| nb_actors := 2 |} [0; 1]%float
    (PyFloatArray [1; 2; 3]%float) PyNone PyNone PyNone PyNone PyNone PyNone
    DOE_default DCR_default
  = Return [5; -0]%float
  ∧ mixed_policy {| nb_actors := 2 |} [0; 1]%float
      (PyFloatArray [1; 2; 3]%float) PyNone PyNone PyNone PyNone PyNone
      PyNone DOE_default DCR_default
    = Return [2.5; -2.5]%float
  ∧ shape_mismatch [0; 1]%float [PyFloatArray [1; 2; 3]%float]
  ∧ ¬ (∃ self a p1 p2 p3 p4 p5 p6 p7 doe dcr,
         shape_mismatch a [p1; p2; p3; p4; p5; p6; p7]
         ∧ (raises (fine_policy self a p1 p2 p3 p4 p5 p6 p7 doe dcr)
            ∨ raises (mixed_policy self a p1 p2 p3 p4 p5 p6 p7 doe dcr)
            ∨ raises (subvention_policy self a p1 p2 p3 p4 p5 p6 p7 doe dcr))).
Proof.
  split_and!; [reflexivity|reflexivity| |].
  - exists (PyFloatArray [1; 2; 3]%float), 3. split_and!; [|done|done].
    apply list_elem_of_singleton. done.
  - intros (self & a & p1 & p2 & p3 & p4 & p5 & p6 & p7 & doe & dcr & _ & H).
    by destruct H as [H|[H|H]].
Qed.

(** C6 fails on the code: for the action 0.02 (the binary64 value nearest
    to it) the two differences are 2.5000000000000004 and 2.5. *)
Lemma consistency_law_fails_in_binary64 :
  ∃ f m s,
    fine_policy {| nb_actors := 1 |} [0x1.47ae147ae147bp-6]%float
      PyNone PyNone PyNone PyNone PyNone PyNone PyNone
      DOE_default DCR_default = Return f
    ∧ mixed_policy {| nb_actors := 1 |} [0x1.47ae147ae147bp-6]%float
        PyNone PyNone PyNone PyNone PyNone PyNone PyNone
        DOE_default DCR_default = Return m
    ∧ subvention_policy {| nb_actors := 1 |} [0x1.47ae147ae147bp-6]%float
        PyNone PyNone PyNone PyNone PyNone PyNone PyNone
        DOE_default DCR_default = Return s
    ∧ np.sub f m = [0x1.4000000000001p+1]%float
    ∧ np.sub m s = [2.5]%float
    ∧ ¬ array_same (np.sub f m) (np.sub m s).
Proof.
  eexists _, _, _. split_and!; [reflexivity..|].
  intros H. vm_compute in H. inversion H as [|x y l l' Hxy]. discriminate Hxy.
Qed.

(** The gap between the two differences can reach three units of the last
    place of 2.5, as for the action 0.00691; and it is not bounded for
    actions of any size: for the action 2^53 the differences are 8
    and 0. *)
Example consistency_gap_examples :
  ∃ f m s f' m' s',
    fine_policy {| nb_actors := 1 |} [0x1.c4da9003eea21p-8]%float
      PyNone PyNone PyNone PyNone PyNone PyNone PyNone
      DOE_default DCR_default = Return f
    ∧ mixed_policy {| nb_actors := 1 |} [0x1.c4da9003eea21p-8]%float
        PyNone PyNone PyNone PyNone PyNone PyNone PyNone
        DOE_default DCR_default = Return m
    ∧ subvention_policy {| nb_actors := 1 |} [0x1.c4da9003eea21p-8]%float
        PyNone PyNone PyNone PyNone PyNone PyNone PyNone
        DOE_default DCR_default = Return s
    ∧ np.sub f m = [0x1.4000000000002p+1]%float
    ∧ np.sub m s = [0x1.3ffffffffffffp+1]%float
    ∧ fine_policy {| nb_actors := 1 |} [0x1p+53]%float
        PyNone PyNone PyNone PyNone PyNone PyNone PyNone
        DOE_default DCR_default = Return f'
    ∧ mixed_policy {| nb_actors := 1 |} [0x1p+53]%float
        PyNone PyNone PyNone PyNone PyNone PyNone PyNone
        DOE_default DCR_default = Return m'
    ∧ subvention_policy {| nb_actors := 1 |} [0x1p+53]%float
        PyNone PyNone PyNone PyNone PyNone PyNone PyNone
        DOE_default DCR_default = Return s'
    ∧ np.sub f' m' = [8]%float
    ∧ np.sub m' s' = [0]%float.
Proof. eexists _, _, _, _, _, _. split_and!; reflexivity. Qed.

(** C8. The contextual arguments do not influence the result: two calls of
    one policy on the same object and actions return the same, whatever is
    passed for the priorities, incomes, pumping levels, crisis flags,
    flows, quotas and thresholds. *)
Theorem policies_ignore_context (self : simulation) (a : list float)
    (p1 p2 p3 p4 p5 p6 p7 doe dcr q1 q2 q3 q4 q5 q6 q7 doe' dcr' : pyval) :
  no_policy self a p1 p2 p3 p4 p5 p6 p7 doe dcr
  = no_policy self a q1 q2 q3 q4 q5 q6 q7 doe' dcr'
  ∧ subvention_policy self a p1 p2 p3 p4 p5 p6 p7 doe dcr
    = subvention_policy self a q1 q2 q3 q4 q5 q6 q7 doe' dcr'
  ∧ fine_policy self a p1 p2 p3 p4 p5 p6 p7 doe dcr
    = fine_policy self a q1 q2 q3 q4 q5 q6 q7 doe' dcr'
  ∧ mixed_policy self a p1 p2 p3 p4 p5 p6 p7 doe dcr
    = mixed_policy self a q1 q2 q3 q4 q5 q6 q7 doe' dcr'.
Proof. by split_and!. Qed.

(** ** The Pareto filter *)

Section pareto.

Implicit Types (costs : list (list float)) (c row : list float).

Lemma dominated_mask_map costs c :
  dominated_mask costs c = map (λ row, row_dominates row c) costs.
Proof.
  unfold dominated_mask, np.and, np.all_axis1, np.any_axis1,
    np.le_rows, np.lt_rows.
  induction costs as [|row costs IH]; [done|]. simpl. by rewrite IH.
Qed.

Lemma some_row_dominates_existsb costs c :
  some_row_dominates costs c = existsb (λ row, row_dominates row c) costs.
Proof.
  unfold some_row_dominates, np.any. rewrite dominated_mask_map.
  induction costs as [|row costs IH]; [done|]. simpl. by rewrite IH.
Qed.

Lemma forallb_zip_with_nth {A} (f : A → A → bool) (d : A) (r c : list A) m :
  length r = m → length c = m →
  forallb (λ b, b) (zip_with f r c) = true
  ↔ ∀ col, col < m → f (nth col r d) (nth col c d) = true.
Proof.
  revert c m.
  induction r as [|x r IH]; intros [|y c] m; simpl; intros <-; try done.
  - intros _. split; [intros _ col; lia|done].
  - intros [= Hc]. rewrite andb_true_iff, (IH c (length r)) by done. split.
    + intros [Hx Hr] [|col] Hlt; [done|]. apply Hr. lia.
    + intros H. split; [apply (H 0); lia|].
      intros col Hlt. apply (H (S col)). lia.
Qed.

Lemma existsb_zip_with_nth {A} (f : A → A → bool) (d : A) (r c : list A) m :
  length r = m → length c = m →
  existsb (λ b, b) (zip_with f r c) = true
  ↔ ∃ col, col < m ∧ f (nth col r d) (nth col c d) = true.
Proof.
  revert c m.
  induction r as [|x r IH]; intros [|y c] m; simpl; intros <-; try done.
  - intros _. split; [done|]. intros (col & ? & _). lia.
  - intros [= Hc]. rewrite orb_true_iff, (IH c (length r)) by done. split.
    + intros [Hx|(col & Hlt & Hr)]; [exists 0; split; [lia|done]|].
      exists (S col). split; [lia|done].
    + intros ([|col] & Hlt & H); [by left|].
      right. exists col. split; [lia|done].
Qed.

Lemma has_shape_row costs n m j :
  has_shape costs n m → j < n → length (nth j costs []) = m.
Proof.
  intros [Hn Hm] Hj. rewrite Forall_forall in Hm.
  apply Hm, list_elem_of_In, nth_In. lia.
Qed.

Lemma row_dominates_spec costs n m j i :
  has_shape costs n m → j < n → i < n →
  row_dominates (nth j costs []) (nth i costs []) = true
  ↔ dominates costs m j i.
Proof.
  intros Hs Hj Hi. unfold row_dominates, dominates, entry.
  rewrite andb_true_iff.
  by rewrite (forallb_zip_with_nth _ 0%float _ _ m),
    (existsb_zip_with_nth _ 0%float _ _ m) by eauto using has_shape_row.
Qed.

Lemma some_row_dominates_spec costs n m i :
  has_shape costs n m → i < n →
  some_row_dominates costs (nth i costs []) = true
  ↔ ∃ j, j < n ∧ dominates costs m j i.
Proof.
  intros Hs Hi. pose proof Hs as [Hn _].
  rewrite some_row_dominates_existsb, existsb_exists. split.
  - intros (row & Hin & Hd). apply (In_nth _ _ []) in Hin as (j & Hj & <-).
    exists j. split; [lia|]. apply (row_dominates_spec costs n); [done|lia..|done].
  - intros (j & Hj & Hd). exists (nth j costs []).
    split; [apply nth_In; lia|]. by apply (row_dominates_spec costs n m).
Qed.

(** The loop writes entry [k + i] for the [i]-th row left and no other. *)
Lemma pareto_loop_spec costs (rows : list (list float)) k eff :
  k + length rows ≤ length eff →
  ∃ eff', pareto_loop costs (imap (λ i x, (k + i, x)) rows) eff = Return eff'
    ∧ length eff' = length eff
    ∧ ∀ j, eff' !! j =
        if decide (k ≤ j < k + length rows)
        then Some (negb (some_row_dominates costs (nth (j - k) rows [])))
        else eff !! j.
Proof.
  revert k eff. induction rows as [|c rows IH]; intros k eff Hlen; simpl in *.
  - exists eff. split_and!; [done..|]. intros j. case_decide; [lia|done].
  - unfold np.setitem. rewrite Nat.add_0_r. case_decide; [|lia]. simpl.
    destruct (IH (S k) (<[k := negb (some_row_dominates costs c)]> eff))
      as (eff' & Hrun & Hl & Hlook).
    { rewrite length_insert. lia. }
    exists eff'. split_and!.
    + rewrite <- Hrun. unfold mbind, result_bind. f_equal.
      apply imap_ext. intros; simpl. f_equal. lia.
    + by rewrite Hl, length_insert.
    + intros j. rewrite Hlook. repeat case_decide; try lia.
      * replace (j - k) with (S (j - S k)) by lia. done.
      * assert (j = k) as -> by lia. rewrite Nat.sub_diag.
        by rewrite list_lookup_insert_eq.
      * rewrite list_lookup_insert_ne by lia. done.
Qed.

(** The call returns, with one entry per row. *)
Lemma is_pareto_efficient_run costs :
  ∃ mask, is_pareto_efficient costs = Return mask
    ∧ length mask = length costs
    ∧ ∀ i, i < length costs →
        mask !! i = Some (negb (some_row_dominates costs (nth i costs []))).
Proof.
  destruct (pareto_loop_spec costs costs 0 (np.ones_bool (length costs)))
    as (mask & Hrun & Hl & Hlook).
  { unfold np.ones_bool. rewrite length_replicate. lia. }
  exists mask. split_and!.
  - done.
  - rewrite Hl. apply length_replicate.
  - intros i Hi. rewrite Hlook. case_decide; [|lia]. by rewrite Nat.sub_0_r.
Qed.

(** C1. For a cost matrix of shape [(n, m)], [is_pareto_efficient] returns
    a boolean vector of length [n] whose entry [i] is [True] if and only if
    no row [j] has [costs[j][col] <= costs[i][col]] in every column and
    [costs[j][col] < costs[i][col]] in some column. *)
Theorem is_pareto_efficient_correct costs n m :
  has_shape costs n m →
  ∃ mask, is_pareto_efficient costs = Return mask
    ∧ length mask = n
    ∧ ∀ i, i < n →
        (mask !! i = Some true ↔ ¬ ∃ j, j < n ∧ dominates costs m j i).
Proof.
  intros Hs.
  destruct (is_pareto_efficient_run costs) as (mask & Hrun & Hl & Hlook).
  pose proof Hs as [Hn _].
  exists mask. split_and!; [done|lia|].
  intros i Hi. rewrite Hlook by lia.
  rewrite <- (some_row_dominates_spec costs n m i) by done.
  destruct (some_row_dominates _ _); simpl; split; try done.
Qed.

Lemma is_pareto_efficient_correct_witness :
  has_shape [[1; 1]; [2; 2]; [1; 2]]%float 3 2
  ∧ ∃ mask, is_pareto_efficient [[1; 1]; [2; 2]; [1; 2]]%float = Return mask
      ∧ length mask = 3
      ∧ ∀ i, i < 3 →
          (mask !! i = Some true
           ↔ ¬ ∃ j, j < 3 ∧ dominates [[1; 1]; [2; 2]; [1; 2]]%float 2 j i).
Proof.
  assert (has_shape [[1; 1]; [2; 2]; [1; 2]]%float 3 2) as Hs.
  { split; [reflexivity|]. repeat constructor. }
  split; [exact Hs|].
  exact (is_pareto_efficient_correct [[1; 1]; [2; 2]; [1; 2]]%float 3 2 Hs).
Defined.

Example pareto_three_points :
  is_pareto_efficient [[1; 1]; [2; 2]; [1; 2]]%float
  = Return [true; false; false].
Proof. reflexivity. Qed.

Example pareto_single_point :
  is_pareto_efficient [[3; 0.5]]%float = Return [true].
Proof. reflexivity. Qed.

Lemma row_dominates_refl row : row_dominates row row = false.
Proof.
  unfold row_dominates. apply andb_false_intro2.
  induction row as [|x row IH]; [done|]. simpl.
  by rewrite ltb_irrefl, IH.
Qed.

(** C7. Two identical rows [i] and [j] do not dominate each other: the
    dominance test of either against the other is [False], so that the two
    get the same entry of the mask, and a matrix of two identical rows,
    such as [[1,1],[1,1]], yields [True, True]. *)
Theorem identical_rows_do_not_dominate costs i j row :
  costs !! i = Some row → costs !! j = Some row →
  dominated_mask costs row !! j = Some false
  ∧ dominated_mask costs row !! i = Some false
  ∧ (∃ mask b, is_pareto_efficient costs = Return mask
       ∧ mask !! i = Some b ∧ mask !! j = Some b)
  ∧ is_pareto_efficient [row; row] = Return [true; true]
  ∧ is_pareto_efficient [[1; 1]; [1; 1]]%float = Return [true; true].
Proof.
  intros Hi Hj. rewrite dominated_mask_map, !list_lookup_fmap, Hi, Hj. simpl.
  rewrite row_dominates_refl. split_and!; [done|done| | |reflexivity].
  - destruct (is_pareto_efficient_run costs) as (mask & Hrun & _ & Hlook).
    exists mask, (negb (some_row_dominates costs row)). split; [done|].
    rewrite !Hlook by (by eapply lookup_lt_Some).
    by rewrite (nth_lookup_Some _ _ _ _ Hi), (nth_lookup_Some _ _ _ _ Hj).
  - unfold is_pareto_efficient. simpl.
    rewrite some_row_dominates_existsb. simpl.
    by rewrite row_dominates_refl.
Qed.

Lemma identical_rows_do_not_dominate_witness :
  [[1; 1]; [0; 3]; [1; 1]]%float !! 0 = Some [1; 1]%float
  ∧ [[1; 1]; [0; 3]; [1; 1]]%float !! 2 = Some [1; 1]%float
  ∧ dominated_mask [[1; 1]; [0; 3]; [1; 1]]%float [1; 1]%float !! 2
    = Some false
  ∧ dominated_mask [[1; 1]; [0; 3]; [1; 1]]%float [1; 1]%float !! 0
    = Some false.
Proof.
  split; [reflexivity|]. split; [reflexivity|].
  pose proof (identical_rows_do_not_dominate
                [[1; 1]; [0; 3]; [1; 1]]%float 0 2 [1; 1]%float
                eq_refl eq_refl) as (H1 & H2 & _).
  exact (conj H1 H2).
Defined.

(** C5 fails on the code: a cost matrix with a NaN and an infinity, and
    actions with a NaN and an infinity, are accepted; the calls return. *)
Lemma non_finite_input_is_accepted :
  is_pareto_efficient [[nan; 1]; [0; infinity]]%float = Return [true; true]
  ∧ subvention_policy {| nb_actors := 2 |} [nan; infinity]%float
      PyNone PyNone PyNone PyNone PyNone PyNone PyNone
      DOE_default DCR_default
    = Return [nan; neg_infinity]%float
  ∧ ¬ raises (is_pareto_efficient [[nan; 1]; [0; infinity]]%float)
  ∧ ¬ raises (subvention_policy {| nb_actors := 2 |} [nan; infinity]%float
                PyNone PyNone PyNone PyNone PyNone PyNone PyNone
                DOE_default DCR_default).
Proof. split_and!; [reflexivity|reflexivity|by vm_compute..]. Qed.

Lemma nan_entries_map (f : float → float) (a : list float) :
  (∀ x, PrimFloat.is_nan x = true → PrimFloat.is_nan (f x) = true) →
  Forall2 (λ x y, PrimFloat.is_nan x = true → PrimFloat.is_nan y = true)
    a (map f a).
Proof. intros H. induction a; simpl; constructor; auto. Qed.

(** C5, as the code has it. Non-finite values are not rejected.
    [is_pareto_efficient] returns a mask for every cost matrix, in which a
    row with a NaN entry is marked efficient (every comparison with NaN is
    false); the three affine policies return an adjustment vector for every
    action vector, in which a NaN action gives a NaN adjustment. *)
Theorem non_finite_values_propagate :
  (∀ costs, ∃ mask, is_pareto_efficient costs = Return mask
              ∧ length mask = length costs)
  ∧ (∀ costs n m i col,
       has_shape costs n m → i < n → col < m →
       PrimFloat.is_nan (entry costs i col) = true →
       ∃ mask, is_pareto_efficient costs = Return mask
         ∧ mask !! i = Some true)
  ∧ (∀ self a p1 p2 p3 p4 p5 p6 p7 doe dcr,
       (∃ out, subvention_policy self a p1 p2 p3 p4 p5 p6 p7 doe dcr
               = Return out
          ∧ Forall2 (λ x y, PrimFloat.is_nan x = true →
                            PrimFloat.is_nan y = true) a out)
       ∧ (∃ out, fine_policy self a p1 p2 p3 p4 p5 p6 p7 doe dcr
                 = Return out
            ∧ Forall2 (λ x y, PrimFloat.is_nan x = true →
                              PrimFloat.is_nan y = true) a out)
       ∧ (∃ out, mixed_policy self a p1 p2 p3 p4 p5 p6 p7 doe dcr
                 = Return out
            ∧ Forall2 (λ x y, PrimFloat.is_nan x = true →
                              PrimFloat.is_nan y = true) a out)).
Proof.
  split_and!.
  - intros costs.
    destruct (is_pareto_efficient_run costs) as (mask & Hrun & Hl & _).
    by exists mask.
  - intros costs n m i col Hs Hi Hcol Hnan.
    destruct (is_pareto_efficient_run costs) as (mask & Hrun & _ & Hmask).
    pose proof Hs as [Hn _].
    exists mask. split; [done|]. rewrite Hmask by lia.
    destruct (some_row_dominates costs (nth i costs [])) eqn:Hd; [|done].
    apply (some_row_dominates_spec costs n m i Hs Hi) in Hd
      as (j & _ & Hle & _).
    specialize (Hle col Hcol). by rewrite leb_nan_r in Hle.
  - intros. split_and!; eexists.
    + split; [apply subvention_policy_eq|].
      apply nan_entries_map. intros x. apply float_scale_nan.
    + split; [apply fine_policy_eq|].
      apply nan_entries_map. intros x. apply float_affine_nan.
    + split; [apply mixed_policy_eq|].
      apply nan_entries_map. intros x. apply float_affine_nan.
Qed.

End pareto.

(** ** Calls over the store *)

Section store_calls.

Implicit Types (h : gmap store.loc store.cell) (l : store.loc).

Lemma runs_ret {S A} (a : A) (s : S) Q : Q a s → runs (mret a) s Q.
Proof. intros H. by exists a, s. Qed.

Lemma runs_bind {S A B} (c : stateful S A) (k : A → stateful S B) s Q :
  runs c s (λ a s', runs (k a) s' Q) → runs (c ≫= k) s Q.
Proof.
  intros (a & s' & Hc & b & s'' & Hk & HQ). exists b, s''. split; [|done].
  unfold mbind, stateful_bind. by rewrite Hc.
Qed.

Lemma runs_mono {S A} (c : stateful S A) s (Q Q' : A → S → Prop) :
  runs c s Q → (∀ a s', Q a s' → Q' a s') → runs c s Q'.
Proof. intros (a & s' & Hc & HQ) H. exists a, s'. eauto. Qed.

Lemma runs_alloc (v : store.cell) h Q :
  (∀ l, h !! l = None → Q l (<[l := v]> h)) → runs (store.alloc v) h Q.
Proof.
  intros H. exists (fresh (dom h)), (<[fresh (dom h) := v]> h).
  split; [done|]. apply H, not_elem_of_dom, is_fresh.
Qed.

Lemma runs_load l (v : store.cell) h Q :
  h !! l = Some v → Q v h → runs (store.load l) h Q.
Proof.
  intros Hl HQ. exists v, h. split; [|done]. unfold store.load. by rewrite Hl.
Qed.

Lemma runs_write l (v : store.cell) h
    (Q : unit → gmap store.loc store.cell → Prop) :
  Q tt (<[l := v]> h) → runs (store.write l v) h Q.
Proof. intros HQ. by exists tt, (<[l := v]> h). Qed.

Lemma runs_load_float_arr l a h Q :
  h !! l = Some (store.FloatArr a) → Q a h →
  runs (store.load_float_arr l) h Q.
Proof.
  intros Hl HQ. apply runs_bind. eapply runs_load; [done|]. by apply runs_ret.
Qed.

Lemma runs_load_float_mat l m h Q :
  h !! l = Some (store.FloatMat m) → Q m h →
  runs (store.load_float_mat l) h Q.
Proof.
  intros Hl HQ. apply runs_bind. eapply runs_load; [done|]. by apply runs_ret.
Qed.

Lemma runs_load_bool_arr l a h Q :
  h !! l = Some (store.BoolArr a) → Q a h →
  runs (store.load_bool_arr l) h Q.
Proof.
  intros Hl HQ. apply runs_bind. eapply runs_load; [done|]. by apply runs_ret.
Qed.

Lemma runs_load_bool_mat l m h Q :
  h !! l = Some (store.BoolMat m) → Q m h →
  runs (store.load_bool_mat l) h Q.
Proof.
  intros Hl HQ. apply runs_bind. eapply runs_load; [done|]. by apply runs_ret.
Qed.

Lemma unchanged_fresh h h' l : unchanged h h' → h' !! l = None → h !! l = None.
Proof.
  intros Hu Hn. destruct (h !! l) eqn:E; [|done].
  apply Hu in E. congruence.
Qed.

Lemma returns_fresh_alloc v h : returns_fresh (store.alloc v) h v.
Proof.
  apply runs_alloc. intros l Hl. split_and!; [done| |].
  - apply lookup_insert_eq.
  - intros l' c' H. rewrite lookup_insert_ne; [done|congruence].
Qed.

(** After an allocating call, the continuation runs in a store that has
    the new array and all the old ones. *)
Lemma runs_fresh_bind {B} (c : store.M store.loc) (k : store.loc → store.M B)
    h v Q :
  returns_fresh c h v →
  (∀ l h', h !! l = None → h' !! l = Some v → unchanged h h' →
           runs (k l) h' Q) →
  runs (c ≫= k) h Q.
Proof.
  intros Hc Hk. apply runs_bind. eapply runs_mono; [exact Hc|].
  intros l h' (Hn & Hv & Hsub); simpl. by apply Hk.
Qed.

Lemma returns_fresh_bind (c : store.M store.loc)
    (k : store.loc → store.M store.loc) h v w :
  returns_fresh c h v →
  (∀ l h', h' !! l = Some v → returns_fresh (k l) h' w) →
  returns_fresh (c ≫= k) h w.
Proof.
  intros Hc Hk. eapply runs_fresh_bind; [exact Hc|].
  intros l h' Hn Hv Hsub. eapply runs_mono; [by apply Hk|].
  intros l' h'' (Hn' & Hw & Hsub'); simpl. split_and!; [|done|].
  - by eapply unchanged_fresh.
  - intros l0 c0 H0. by apply Hsub', Hsub.
Qed.

Lemma astype_float_fresh a v h :
  h !! a = Some (store.FloatArr v) →
  returns_fresh (store.astype_float a) h (store.FloatArr (np.astype_float v)).
Proof.
  intros Ha. apply runs_bind. eapply runs_load_float_arr; [done|].
  apply returns_fresh_alloc.
Qed.

Lemma sub_scalar_fresh a v c h :
  h !! a = Some (store.FloatArr v) →
  returns_fresh (store.sub_scalar a c) h
    (store.FloatArr (np.sub_scalar v c)).
Proof.
  intros Ha. apply runs_bind. eapply runs_load_float_arr; [done|].
  apply returns_fresh_alloc.
Qed.

Lemma neg_fresh a v h :
  h !! a = Some (store.FloatArr v) →
  returns_fresh (store.neg a) h (store.FloatArr (np.neg v)).
Proof.
  intros Ha. apply runs_bind. eapply runs_load_float_arr; [done|].
  apply returns_fresh_alloc.
Qed.

Lemma mul_scalar_fresh a v c h :
  h !! a = Some (store.FloatArr v) →
  returns_fresh (store.mul_scalar a c) h
    (store.FloatArr (np.mul_scalar v c)).
Proof.
  intros Ha. apply runs_bind. eapply runs_load_float_arr; [done|].
  apply returns_fresh_alloc.
Qed.

Lemma le_rows_fresh costs i m row h :
  h !! costs = Some (store.FloatMat m) → m !! i = Some row →
  returns_fresh (store.le_rows costs (store.RowOf costs i)) h
    (store.BoolMat (np.le_rows m row)).
Proof.
  intros Hc Hi. apply runs_bind. eapply runs_load_float_mat; [done|].
  apply runs_bind. simpl. apply runs_bind.
  eapply runs_load_float_mat; [done|].
  rewrite Hi. apply runs_ret. apply returns_fresh_alloc.
Qed.

Lemma lt_rows_fresh costs i m row h :
  h !! costs = Some (store.FloatMat m) → m !! i = Some row →
  returns_fresh (store.lt_rows costs (store.RowOf costs i)) h
    (store.BoolMat (np.lt_rows m row)).
Proof.
  intros Hc Hi. apply runs_bind. eapply runs_load_float_mat; [done|].
  apply runs_bind. simpl. apply runs_bind.
  eapply runs_load_float_mat; [done|].
  rewrite Hi. apply runs_ret. apply returns_fresh_alloc.
Qed.

Lemma all_axis1_fresh b m h :
  h !! b = Some (store.BoolMat m) →
  returns_fresh (store.all_axis1 b) h (store.BoolArr (np.all_axis1 m)).
Proof.
  intros Hb. apply runs_bind. eapply runs_load_bool_mat; [done|].
  apply returns_fresh_alloc.
Qed.

Lemma any_axis1_fresh b m h :
  h !! b = Some (store.BoolMat m) →
  returns_fresh (store.any_axis1 b) h (store.BoolArr (np.any_axis1 m)).
Proof.
  intros Hb. apply runs_bind. eapply runs_load_bool_mat; [done|].
  apply returns_fresh_alloc.
Qed.

Lemma and_fresh a b x y h :
  h !! a = Some (store.BoolArr x) → h !! b = Some (store.BoolArr y) →
  returns_fresh (store.and a b) h (store.BoolArr (np.and x y)).
Proof.
  intros Ha Hb. apply runs_bind. eapply runs_load_bool_arr; [done|].
  apply runs_bind. eapply runs_load_bool_arr; [done|].
  apply returns_fresh_alloc.
Qed.

(** One iteration writes entry [i] of [is_efficient] and nothing else that
    was in the store. *)
Lemma pareto_step_runs costs e i m row eff h :
  h !! costs = Some (store.FloatMat m) → m !! i = Some row →
  h !! e = Some (store.BoolArr eff) → i < length eff →
  runs (store.pareto_step costs e i) h (λ _ h',
    h' !! e
    = Some (store.BoolArr (<[i := negb (some_row_dominates m row)]> eff))
    ∧ ∀ l c, l ≠ e → h !! l = Some c → h' !! l = Some c).
Proof.
  intros Hc Hi He Hlt. unfold store.pareto_step.
  eapply runs_fresh_bind; [by eapply le_rows_fresh|]. intros l1 h1 _ H1 S1.
  eapply runs_fresh_bind; [by eapply all_axis1_fresh|]. intros l2 h2 _ H2 S2.
  eapply runs_fresh_bind; [eapply lt_rows_fresh; [by apply S2, S1|done]|].
  intros l3 h3 _ H3 S3.
  eapply runs_fresh_bind; [by eapply any_axis1_fresh|]. intros l4 h4 _ H4 S4.
  eapply runs_fresh_bind; [eapply and_fresh; [by apply S4, S3|done]|].
  intros l5 h5 _ H5 S5.
  apply runs_bind. apply runs_bind. eapply runs_load_bool_arr; [done|].
  apply runs_ret. unfold store.setitem.
  apply runs_bind.
  eapply runs_load_bool_arr; [by apply S5, S4, S3, S2, S1|].
  unfold np.setitem. case_decide; [|lia].
  apply runs_write. split.
  - apply lookup_insert_eq.
  - intros l c Hne Hl. rewrite lookup_insert_ne by done.
    by apply S5, S4, S3, S2, S1.
Qed.

Lemma pareto_loop_runs costs e m len : ∀ k eff h,
  h !! costs = Some (store.FloatMat m) → h !! e = Some (store.BoolArr eff) →
  k + len ≤ length m → length m ≤ length eff →
  runs (store.pareto_loop costs e (seq k len)) h (λ _ h',
    (∃ eff', h' !! e = Some (store.BoolArr eff')
       ∧ length eff' = length eff
       ∧ ∀ j, eff' !! j =
           if decide (k ≤ j < k + len)
           then Some (negb (some_row_dominates m (nth j m [])))
           else eff !! j)
    ∧ ∀ l c, l ≠ e → h !! l = Some c → h' !! l = Some c).
Proof.
  induction len as [|len IH]; intros k eff h Hc He Hk Hm; simpl.
  - apply runs_ret. split; [|done]. exists eff. split_and!; [done..|].
    intros j. case_decide; [lia|done].
  - destruct (lookup_lt_is_Some_2 m k) as [row Hrow]; [lia|].
    apply runs_bind. eapply runs_mono.
    { eapply pareto_step_runs; [done..|lia]. }
    intros [] h1 [He1 Hf1]; simpl.
    assert (costs ≠ e) as Hne by congruence.
    eapply runs_mono.
    { apply (IH (S k)); [by apply Hf1|done|lia|]. rewrite length_insert. lia. }
    intros [] h2 [(eff' & He2 & Hl & Hlook) Hf2]; simpl. split.
    + exists eff'. split_and!; [done|by rewrite Hl, length_insert|].
      intros j. rewrite Hlook. repeat case_decide; try lia; try done.
      * assert (j = k) as -> by lia. rewrite list_lookup_insert_eq by lia.
        by rewrite (nth_lookup_Some _ _ _ _ Hrow).
      * rewrite list_lookup_insert_ne by lia. done.
    + intros l c Hl' Hh. by apply Hf2, Hf1.
Qed.

Lemma is_pareto_efficient_mirrors costs m h :
  h !! costs = Some (store.FloatMat m) →
  mirrors (store.is_pareto_efficient costs) h
    (bool_array (is_pareto_efficient m)).
Proof.
  intros Hc. destruct (is_pareto_efficient_run m) as (mask & -> & Hlen & Hmask).
  simpl. unfold store.is_pareto_efficient.
  apply runs_bind. apply runs_bind. eapply runs_load_float_mat; [done|].
  apply runs_ret. eapply runs_fresh_bind; [apply returns_fresh_alloc|].
  intros e h1 Hn He S1. apply runs_bind. eapply runs_mono.
  { eapply (pareto_loop_runs costs e m (length m) 0);
      [by apply S1|done|lia|].
    unfold np.ones_bool. by rewrite length_replicate. }
  intros [] h2 [(eff' & He2 & Hl & Hlook) Hf2]; simpl.
  apply runs_ret. split_and!; [done| |].
  - rewrite He2. do 2 f_equal. apply list_eq. intros j.
    unfold np.ones_bool in *. rewrite length_replicate in Hl.
    rewrite Hlook. case_decide.
    + rewrite Hmask by lia. done.
    + rewrite (lookup_ge_None_2 mask) by lia.
      apply lookup_ge_None_2. rewrite length_replicate. lia.
  - intros l c Hl'. apply Hf2; [congruence|]. by apply S1.
Qed.

Section policy_calls.

Variables (self : simulation) (actions : store.loc) (a : list float).
Variables p1 p2 p3 p4 p5 p6 p7 doe dcr : store.arg.
Variables q1 q2 q3 q4 q5 q6 q7 doe' dcr' : pyval.

Lemma mixed_policy_mirrors h :
  h !! actions = Some (store.FloatArr a) →
  mirrors (store.mixed_policy self actions p1 p2 p3 p4 p5 p6 p7 doe dcr) h
    (float_array (mixed_policy self a q1 q2 q3 q4 q5 q6 q7 doe' dcr')).
Proof.
  intros Ha. unfold store.mixed_policy, mixed_policy. simpl.
  eapply returns_fresh_bind; [by apply astype_float_fresh|]. intros l1 h1 H1.
  eapply returns_fresh_bind; [by apply sub_scalar_fresh|]. intros l2 h2 H2.
  eapply returns_fresh_bind; [by apply neg_fresh|]. intros l3 h3 H3.
  by apply mul_scalar_fresh.
Qed.

Lemma fine_policy_mirrors h :
  h !! actions = Some (store.FloatArr a) →
  mirrors (store.fine_policy self actions p1 p2 p3 p4 p5 p6 p7 doe dcr) h
    (float_array (fine_policy self a q1 q2 q3 q4 q5 q6 q7 doe' dcr')).
Proof.
  intros Ha. unfold store.fine_policy, fine_policy. simpl.
  eapply returns_fresh_bind; [by apply astype_float_fresh|]. intros l1 h1 H1.
  eapply returns_fresh_bind; [by apply sub_scalar_fresh|]. intros l2 h2 H2.
  eapply returns_fresh_bind; [by apply neg_fresh|]. intros l3 h3 H3.
  by apply mul_scalar_fresh.
Qed.

Lemma subvention_policy_mirrors h :
  h !! actions = Some (store.FloatArr a) →
  mirrors (store.subvention_policy self actions p1 p2 p3 p4 p5 p6 p7 doe dcr)
    h (float_array (subvention_policy self a q1 q2 q3 q4 q5 q6 q7 doe' dcr')).
Proof.
  intros Ha. unfold store.subvention_policy, subvention_policy. simpl.
  eapply returns_fresh_bind; [by apply astype_float_fresh|]. intros l1 h1 H1.
  eapply returns_fresh_bind; [by apply neg_fresh|]. intros l2 h2 H2.
  by apply mul_scalar_fresh.
Qed.

Lemma no_policy_mirrors h :
  mirrors (store.no_policy self actions p1 p2 p3 p4 p5 p6 p7 doe dcr) h
    (float_array (no_policy self a q1 q2 q3 q4 q5 q6 q7 doe' dcr')).
Proof.
  unfold store.no_policy, no_policy, store.zeros.
  destruct (np.zeros (nb_actors self)); simpl; [|done].
  apply returns_fresh_alloc.
Qed.

(** C10. No call to [is_pareto_efficient] or to one of the four policies
    writes to an array it was given: run in a store that holds the cost
    matrix and the action vector, each call leaves every array of the
    store with the values it had and returns its result, the one the
    function on values computes, in an array that was not in the store
    before. *)
Theorem calls_do_not_mutate_their_arguments h costs m :
  h !! costs = Some (store.FloatMat m) →
  h !! actions = Some (store.FloatArr a) →
  mirrors (store.is_pareto_efficient costs) h
    (bool_array (is_pareto_efficient m))
  ∧ mirrors (store.no_policy self actions p1 p2 p3 p4 p5 p6 p7 doe dcr) h
      (float_array (no_policy self a q1 q2 q3 q4 q5 q6 q7 doe' dcr'))
  ∧ mirrors (store.subvention_policy self actions p1 p2 p3 p4 p5 p6 p7
               doe dcr) h
      (float_array (subvention_policy self a q1 q2 q3 q4 q5 q6 q7 doe' dcr'))
  ∧ mirrors (store.fine_policy self actions p1 p2 p3 p4 p5 p6 p7 doe dcr) h
      (float_array (fine_policy self a q1 q2 q3 q4 q5 q6 q7 doe' dcr'))
  ∧ mirrors (store.mixed_policy self actions p1 p2 p3 p4 p5 p6 p7 doe dcr) h
      (float_array (mixed_policy self a q1 q2 q3 q4 q5 q6 q7 doe' dcr')).
Proof.
  intros Hc Ha. split_and!.
  - by apply is_pareto_efficient_mirrors.
  - apply no_policy_mirrors.
  - by apply subvention_policy_mirrors.
  - by apply fine_policy_mirrors.
  - by apply mixed_policy_mirrors.
Qed.

End policy_calls.

End store_calls.

Lemma calls_do_not_mutate_their_arguments_witness :
  example_store !! 1%positive
  = Some (store.FloatMat [[1; 1]; [2; 2]; [1; 2]]%float)
  ∧ example_store !! 2%positive = Some (store.FloatArr [0; 0.5; 1]%float)
  ∧ mirrors (store.is_pareto_efficient 1%positive) example_store
      (bool_array (is_pareto_efficient [[1; 1]; [2; 2]; [1; 2]]%float))
  ∧ mirrors (store.fine_policy {| nb_actors := 3 |} 2%positive
               (store.Ref 1%positive) (store.Ref 2%positive)
               (store.Ref 2%positive) (store.Ref 2%positive)
               (store.Imm (PyBool false)) (store.Imm (PyFloat 12))
               (store.Ref 2%positive) (store.Imm DOE_default)
               (store.Imm DCR_default)) example_store
      (float_array (fine_policy {| nb_actors := 3 |} [0; 0.5; 1]%float
                      PyNone PyNone PyNone PyNone PyNone PyNone PyNone
                      DOE_default DCR_default)).
Proof.
  split; [reflexivity|]. split; [reflexivity|].
  pose proof (calls_do_not_mutate_their_arguments
                {| nb_actors := 3 |} 2%positive [0; 0.5; 1]%float
                (store.Ref 1%positive) (store.Ref 2%positive)
                (store.Ref 2%positive) (store.Ref 2%positive)
                (store.Imm (PyBool false)) (store.Imm (PyFloat 12))
                (store.Ref 2%positive) (store.Imm DOE_default)
                (store.Imm DCR_default)
                PyNone PyNone PyNone PyNone PyNone PyNone PyNone
                DOE_default DCR_default
                example_store 1%positive [[1; 1]; [2; 2]; [1; 2]]%float
                eq_refl eq_refl) as (H1 & _ & _ & H4 & _).
  exact (conj H1 H4).
Defined.

(** ** Saving a figure *)

Section saving.

Context {figure : Type}.
Variable mkdirs : string → stateful (os.filesystem figure) unit.
Variable savefig : figure → string → stateful (os.filesystem figure) unit.
Implicit Types (fig : figure) (fs : os.filesystem figure).

(** A path without a directory part makes the call raise: the empty
    directory name does not exist, and cannot be created. *)
Lemma save_or_create_without_directory fig fs (save_path : string) :
  os.dirname save_path = ""%string →
  os.save_or_create mkdirs savefig fig save_path fs = Raise FileNotFoundError.
Proof.
  intros Hd. unfold os.save_or_create, mbind, stateful_bind, os.path_exists.
  rewrite Hd. reflexivity.
Qed.

(** C9, on the code. For the path [figure.png] the call raises
    [FileNotFoundError] in every file system, and writes no figure. *)
Theorem save_or_create_fails_on_bare_file_name fig fs :
  os.save_or_create mkdirs savefig fig "figure.png" fs
  = Raise FileNotFoundError.
Proof. by apply save_or_create_without_directory. Qed.

(** With a directory part that exists the call is the figure's
    [savefig]. *)
Lemma save_or_create_in_directory fig fs (save_path : string) :
  os.dirname save_path ≠ ""%string →
  os.is_dir fs (os.dirname save_path)
  || os.is_file fs (os.dirname save_path) = true →
  os.save_or_create mkdirs savefig fig save_path fs
  = savefig fig save_path fs.
Proof.
  intros Hd Hex.
  unfold os.save_or_create, mbind, stateful_bind, os.path_exists.
  rewrite decide_False by done. by rewrite Hex.
Qed.

(** With a directory part that does not exist the call is [os.makedirs]
    on the directory part, then the figure's [savefig]. *)
Lemma save_or_create_missing_directory fig fs (save_path : string) :
  os.dirname save_path ≠ ""%string →
  os.is_dir fs (os.dirname save_path)
  || os.is_file fs (os.dirname save_path) = false →
  os.save_or_create mkdirs savefig fig save_path fs
  = match mkdirs (os.dirname save_path) fs with
    | Return (_, fs1) => savefig fig save_path fs1
    | Raise e => Raise e
    end.
Proof.
  intros Hd Hex.
  unfold os.save_or_create, mbind, stateful_bind, os.path_exists, os.makedirs.
  rewrite decide_False by done. rewrite Hex. simpl.
  rewrite decide_False by done.
  by destruct (mkdirs _ fs) as [[[] fs1]|e].
Qed.

End saving.

Example dirname_examples :
  (os.dirname "out/figs/a.png", os.dirname "figure.png",
   os.dirname "/a.png", os.dirname "out//a.png", os.dirname "",
   os.dirname "//")
  = ("out/figs", "", "/", "out", "", "//")%string.
Proof. reflexivity. Qed.

(** * Further properties *)

(** ** The order of binary64 values

    [<=] and [<] on floats, read through the key of their operands. *)

Lemma SFltb_key x y :
  SFltb x y = true
  ↔ x ≠ S754_nan ∧ y ≠ S754_nan ∧ key_lt (sf_key x) (sf_key y).
Proof.
  unfold SFltb, key_lt.
  destruct x as [s|s| |s m e], y as [s'|s'| |s' m' e']; simpl;
    try (destruct s); try (destruct s'); simpl;
    try (split; [done|intros (? & ? & ?); (done || lia)]);
    try (split; [intros _; split_and!; (done || lia)|done]).
  all: change (Pos.compare_cont Eq m m') with (Pos.compare m m');
    destruct (Z.compare_spec e e'); try (destruct (Pos.compare_spec m m'));
    simpl; split; try done; try (intros (_ & _ & ?); lia);
    try (intros _; split_and!; (done || lia)).
Qed.

Lemma SFleb_key x y :
  SFleb x y = true
  ↔ x ≠ S754_nan ∧ y ≠ S754_nan ∧ key_le (sf_key x) (sf_key y).
Proof.
  unfold SFleb, key_le.
  destruct x as [s|s| |s m e], y as [s'|s'| |s' m' e']; simpl;
    try (destruct s); try (destruct s'); simpl;
    try (split; [done|intros (? & ? & ?); (done || lia)]);
    try (split; [intros _; split_and!; (done || lia)|done]).
  all: change (Pos.compare_cont Eq m m') with (Pos.compare m m');
    destruct (Z.compare_spec e e'); try (destruct (Pos.compare_spec m m'));
    simpl; split; try done; try (intros (_ & _ & ?); lia);
    try (intros _; split_and!; (done || lia)).
Qed.

Lemma leb_trans (x y z : float) :
  (x <=? y)%float = true → (y <=? z)%float = true → (x <=? z)%float = true.
Proof.
  rewrite !leb_spec, !SFleb_key. unfold key_le.
  intros (? & ? & ?) (? & ? & ?). split_and!; [done..|lia].
Qed.

Lemma ltb_leb_trans (x y z : float) :
  (x <? y)%float = true → (y <=? z)%float = true → (x <? z)%float = true.
Proof.
  rewrite !ltb_spec, !leb_spec, !SFleb_key, !SFltb_key. unfold key_le, key_lt.
  intros (? & ? & ?) (? & ? & ?). split_and!; [done..|lia].
Qed.

(** ** Dominance as an order on the rows *)

Section pareto_order.

Implicit Types (costs : list (list float)) (c row : list float).

Lemma row_dominates_trans a b c m :
  length a = m → length b = m → length c = m →
  row_dominates a b = true → row_dominates b c = true →
  row_dominates a c = true.
Proof.
  intros Ha Hb Hc. unfold row_dominates. rewrite !andb_true_iff.
  rewrite !(forallb_zip_with_nth _ 0%float _ _ m),
    !(existsb_zip_with_nth _ 0%float _ _ m) by done.
  intros [Hab (col & Hcol & Hlt)] [Hbc _]. split.
  - intros k Hk. eapply leb_trans; eauto.
  - exists col. split; [done|]. eapply ltb_leb_trans; eauto.
Qed.

(** The entry of the mask for a row: whether no row of the matrix passes
    the dominance test against it. *)
Lemma is_pareto_efficient_lookup costs mask i row :
  is_pareto_efficient costs = Return mask → costs !! i = Some row →
  mask !! i = Some (negb (existsb (λ r, row_dominates r row) costs)).
Proof.
  intros Hrun Hi.
  destruct (is_pareto_efficient_run costs) as (mask' & Hrun' & _ & Hlook).
  rewrite Hrun in Hrun'. injection Hrun' as <-.
  rewrite Hlook by (by eapply lookup_lt_Some).
  by rewrite (nth_lookup_Some _ _ _ _ Hi), some_row_dominates_existsb.
Qed.

Lemma existsb_subset {A} (f : A → bool) (l l' : list A) :
  (∀ x, x ∈ l → x ∈ l') → existsb f l = true → existsb f l' = true.
Proof.
  intros Hsub. rewrite !existsb_exists. intros (x & Hx & Hf).
  exists x. split; [|done]. apply list_elem_of_In, Hsub, list_elem_of_In, Hx.
Qed.

Lemma filter_length_le {A} (f g : A → bool) (l : list A) :
  (∀ x, In x l → f x = true → g x = true) →
  length (List.filter f l) ≤ length (List.filter g l).
Proof.
  induction l as [|x l IH]; simpl; intros Hfg; [done|].
  assert (length (List.filter f l) ≤ length (List.filter g l)) by auto.
  destruct (f x) eqn:Hf; [rewrite (Hfg x) by auto; simpl; lia|].
  destruct (g x); simpl; lia.
Qed.

Lemma filter_length_lt {A} (f g : A → bool) (l : list A) :
  (∀ x, In x l → f x = true → g x = true) →
  (∃ x, In x l ∧ f x = false ∧ g x = true) →
  length (List.filter f l) < length (List.filter g l).
Proof.
  induction l as [|x l IH]; simpl; intros Hfg (y & Hy & Hf & Hg); [done|].
  assert (length (List.filter f l) ≤ length (List.filter g l))
    by (apply filter_length_le; auto).
  destruct Hy as [->|Hy].
  - rewrite Hf, Hg. simpl. lia.
  - assert (length (List.filter f l) < length (List.filter g l))
      by (apply IH; eauto).
    destruct (f x) eqn:Hfx; [rewrite (Hfg x) by auto; simpl; lia|].
    destruct (g x); simpl; lia.
Qed.

(** In a rectangular matrix a dominated row is dominated by a row that no
    row dominates: by induction on the number of rows that dominate it,
    which is smaller for each of its dominators. *)
Lemma efficient_dominator costs m :
  Forall (λ row, length row = m) costs →
  ∀ k row, length row = m →
    length (List.filter (λ r, row_dominates r row) costs) ≤ k →
    existsb (λ r, row_dominates r row) costs = true →
    ∃ r', In r' costs ∧ row_dominates r' row = true
          ∧ existsb (λ r, row_dominates r r') costs = false.
Proof.
  intros Hm. rewrite Forall_forall in Hm.
  induction k as [|k IH]; intros row Hrow Hk Hex.
  - apply existsb_exists in Hex as (y & Hy & Hd).
    assert (In y (List.filter (λ r, row_dominates r row) costs)) as Hin
      by (apply filter_In; done).
    destruct (List.filter _ costs); [done|simpl in Hk; lia].
  - pose proof Hex as Hex'. apply existsb_exists in Hex' as (y & Hy & Hd).
    assert (length y = m) as Hym by (apply Hm, list_elem_of_In, Hy).
    destruct (existsb (λ r, row_dominates r y) costs) eqn:Hey; [|by exists y].
    destruct (IH y Hym) as (r' & Hr' & Hdr' & Heff); [|done|].
    + assert (length (List.filter (λ r, row_dominates r y) costs)
              < length (List.filter (λ r, row_dominates r row) costs)); [|lia].
      apply filter_length_lt.
      * intros x Hx Hxy. apply (row_dominates_trans x y row m); try done.
        apply Hm, list_elem_of_In, Hx.
      * exists y. split_and!; [done|apply row_dominates_refl|done].
    + exists r'. split_and!; [done| |done].
      apply (row_dominates_trans r' y row m); try done.
      apply Hm, list_elem_of_In, Hr'.
Qed.

(** X1. The entry of a row depends on which rows the matrix holds, not on
    their order or number of copies: for two matrices with the same rows,
    a row has the same entry in both masks wherever it stands. *)
Theorem verdict_depends_on_the_rows_present costs costs' :
  (∀ r, r ∈ costs ↔ r ∈ costs') →
  ∃ mask mask',
    is_pareto_efficient costs = Return mask
    ∧ is_pareto_efficient costs' = Return mask'
    ∧ ∀ i j row, costs !! i = Some row → costs' !! j = Some row →
        mask !! i = mask' !! j.
Proof.
  intros Hsame.
  destruct (is_pareto_efficient_run costs) as (mask & Hrun & _).
  destruct (is_pareto_efficient_run costs') as (mask' & Hrun' & _).
  exists mask, mask'. split_and!; [done..|].
  intros i j row Hi Hj.
  rewrite (is_pareto_efficient_lookup _ _ _ _ Hrun Hi),
    (is_pareto_efficient_lookup _ _ _ _ Hrun' Hj).
  do 2 f_equal. apply eq_true_iff_eq.
  split; apply existsb_subset; intros x; apply Hsame.
Qed.

Lemma verdict_depends_on_the_rows_present_witness :
  (∀ r, r ∈ [[1; 1]; [2; 2]]%float ↔ r ∈ [[2; 2]; [1; 1]; [1; 1]]%float)
  ∧ ∃ mask mask',
      is_pareto_efficient [[1; 1]; [2; 2]]%float = Return mask
      ∧ is_pareto_efficient [[2; 2]; [1; 1]; [1; 1]]%float = Return mask'
      ∧ ∀ i j row, [[1; 1]; [2; 2]]%float !! i = Some row →
          [[2; 2]; [1; 1]; [1; 1]]%float !! j = Some row →
          mask !! i = mask' !! j.
Proof.
  assert (∀ r, r ∈ [[1; 1]; [2; 2]]%float
               ↔ r ∈ [[2; 2]; [1; 1]; [1; 1]]%float) as H.
  { intros r. rewrite !elem_of_cons, !elem_of_nil. tauto. }
  split; [exact H|].
  exact (verdict_depends_on_the_rows_present _ _ H).
Defined.

(** X2. More candidates never make a row efficient: when every row of
    [costs] is a row of [costs'], a row marked in the mask of [costs'] is
    marked in the mask of [costs]. *)
Theorem more_rows_never_make_a_row_efficient costs costs' :
  (∀ r, r ∈ costs → r ∈ costs') →
  ∃ mask mask',
    is_pareto_efficient costs = Return mask
    ∧ is_pareto_efficient costs' = Return mask'
    ∧ ∀ i j row, costs !! i = Some row → costs' !! j = Some row →
        mask' !! j = Some true → mask !! i = Some true.
Proof.
  intros Hsub.
  destruct (is_pareto_efficient_run costs) as (mask & Hrun & _).
  destruct (is_pareto_efficient_run costs') as (mask' & Hrun' & _).
  exists mask, mask'. split_and!; [done..|].
  intros i j row Hi Hj.
  rewrite (is_pareto_efficient_lookup _ _ _ _ Hrun Hi),
    (is_pareto_efficient_lookup _ _ _ _ Hrun' Hj).
  destruct (existsb _ costs) eqn:E; [|done].
  by rewrite (existsb_subset _ _ _ Hsub E).
Qed.

Lemma more_rows_never_make_a_row_efficient_witness :
  (∀ r, r ∈ [[1; 2]; [2; 1]]%float → r ∈ [[1; 2]; [0; 0]; [2; 1]]%float)
  ∧ ∃ mask mask',
      is_pareto_efficient [[1; 2]; [2; 1]]%float = Return mask
      ∧ is_pareto_efficient [[1; 2]; [0; 0]; [2; 1]]%float = Return mask'
      ∧ ∀ i j row, [[1; 2]; [2; 1]]%float !! i = Some row →
          [[1; 2]; [0; 0]; [2; 1]]%float !! j = Some row →
          mask' !! j = Some true → mask !! i = Some true.
Proof.
  assert (∀ r, r ∈ [[1; 2]; [2; 1]]%float
               → r ∈ [[1; 2]; [0; 0]; [2; 1]]%float) as H.
  { intros r. rewrite !elem_of_cons, !elem_of_nil. tauto. }
  split; [exact H|].
  exact (more_rows_never_make_a_row_efficient _ _ H).
Defined.

(** X3. The marked rows cover the others: in a matrix of shape [(n, m)]
    every row that is not marked is dominated by a row that is. *)
Theorem dominated_row_has_efficient_dominator costs n m :
  has_shape costs n m →
  ∃ mask, is_pareto_efficient costs = Return mask
    ∧ ∀ i, i < n → mask !! i = Some false →
        ∃ j, j < n ∧ mask !! j = Some true ∧ dominates costs m j i.
Proof.
  intros Hs. pose proof Hs as [Hn Hm].
  destruct (is_pareto_efficient_run costs) as (mask & Hrun & _).
  exists mask. split; [done|]. intros i Hi Hfalse.
  destruct (lookup_lt_is_Some_2 costs i) as [row Hrow]; [lia|].
  rewrite (is_pareto_efficient_lookup _ _ _ _ Hrun Hrow) in Hfalse.
  assert (existsb (λ r, row_dominates r row) costs = true) as Hex.
  { destruct (existsb _ costs); [done|discriminate]. }
  assert (length row = m) as Hlen.
  { rewrite Forall_forall in Hm. eapply Hm, list_elem_of_lookup_2, Hrow. }
  destruct (efficient_dominator costs m Hm _ row Hlen (le_n _) Hex)
    as (r' & Hr' & Hdom & Heff).
  apply (In_nth _ _ []) in Hr' as (j & Hj & Hnth).
  assert (costs !! j = Some r') as Hjl.
  { rewrite <- Hnth. destruct (nth_lookup_or_length costs j []); [done|lia]. }
  exists j. split_and!; [lia| |].
  - by rewrite (is_pareto_efficient_lookup _ _ _ _ Hrun Hjl), Heff.
  - apply (row_dominates_spec costs n m j i Hs); [lia|done|].
    by rewrite Hnth, (nth_lookup_Some _ _ _ _ Hrow).
Qed.

Lemma dominated_row_has_efficient_dominator_witness :
  has_shape [[3; 3]; [2; 2]; [1; 1]]%float 3 2
  ∧ ∃ mask, is_pareto_efficient [[3; 3]; [2; 2]; [1; 1]]%float = Return mask
      ∧ ∀ i, i < 3 → mask !! i = Some false →
          ∃ j, j < 3 ∧ mask !! j = Some true
               ∧ dominates [[3; 3]; [2; 2]; [1; 1]]%float 2 j i.
Proof.
  assert (has_shape [[3; 3]; [2; 2]; [1; 1]]%float 3 2) as Hs.
  { split; [reflexivity|]. repeat constructor. }
  split; [exact Hs|].
  exact (dominated_row_has_efficient_dominator _ 3 2 Hs).
Defined.

(** X4. The mask of a matrix with at least one row, of shape [(n, m)],
    marks at least one row, NaN and infinite entries included. *)
Theorem some_row_is_efficient costs n m :
  has_shape costs n m → 0 < n →
  ∃ mask i, is_pareto_efficient costs = Return mask ∧ i < n
    ∧ mask !! i = Some true.
Proof.
  intros Hs Hpos. pose proof Hs as [Hn Hm].
  destruct (is_pareto_efficient_run costs) as (mask & Hrun & _).
  exists mask.
  destruct (lookup_lt_is_Some_2 costs 0) as [row Hrow]; [lia|].
  pose proof (is_pareto_efficient_lookup _ _ _ _ Hrun Hrow) as H0.
  destruct (existsb (λ r, row_dominates r row) costs) eqn:Hex;
    [|by exists 0].
  assert (length row = m) as Hlen.
  { rewrite Forall_forall in Hm. eapply Hm, list_elem_of_lookup_2, Hrow. }
  destruct (efficient_dominator costs m Hm _ row Hlen (le_n _) Hex)
    as (r' & Hr' & Hdom & Heff).
  apply (In_nth _ _ []) in Hr' as (j & Hj & Hnth).
  assert (costs !! j = Some r') as Hjl.
  { rewrite <- Hnth. destruct (nth_lookup_or_length costs j []); [done|lia]. }
  exists j. split_and!; [done|lia|].
  by rewrite (is_pareto_efficient_lookup _ _ _ _ Hrun Hjl), Heff.
Qed.

Lemma some_row_is_efficient_witness :
  has_shape [[nan; 3]; [2; infinity]; [2; 1]]%float 3 2 ∧ 0 < 3
  ∧ ∃ mask i,
      is_pareto_efficient [[nan; 3]; [2; infinity]; [2; 1]]%float
      = Return mask
      ∧ i < 3 ∧ mask !! i = Some true.
Proof.
  assert (has_shape [[nan; 3]; [2; infinity]; [2; 1]]%float 3 2) as Hs.
  { split; [reflexivity|]. repeat constructor. }
  assert (0 < 3) as Hn by lia.
  split; [exact Hs|]. split; [exact Hn|].
  exact (some_row_is_efficient _ 3 2 Hs Hn).
Defined.

End pareto_order.

(** ** The sign of the adjustments

    Rounding keeps the sign of a result, so the sign of an adjustment is
    that of the exact value. *)

Lemma sf_nonpos_leb x : sf_has_sign true (Prim2SF x) ↔ (x <=? 0)%float = true.
Proof.
  rewrite leb_spec. change (Prim2SF 0%float) with (S754_zero false).
  unfold SFleb. destruct (Prim2SF x) as [s|[]| |[] m e]; simpl; split; done.
Qed.

Lemma sf_nonneg_leb x : sf_has_sign false (Prim2SF x) ↔ (0 <=? x)%float = true.
Proof.
  rewrite leb_spec. change (Prim2SF 0%float) with (S754_zero false).
  unfold SFleb. destruct (Prim2SF x) as [s|[]| |[] m e]; simpl; split; done.
Qed.

Lemma binary_round_aux_sign s m e l :
  (0 ≤ m)%Z → sf_has_sign s (binary_round_aux prec emax s m e l).
Proof.
  intros H. pose proof (binary_round_aux_not_nan s m e l H) as Hn.
  unfold binary_round_aux in *.
  destruct (shr_fexp _ _ _ _ _) as [mrs' e'].
  destruct (shr_fexp _ _ _ _ _) as [mrs'' e''].
  destruct (shr_m mrs''); [done| |done].
  by destruct (_ <=? _)%Z.
Qed.

Lemma binary_round_sign s m e : sf_has_sign s (binary_round prec emax s m e).
Proof.
  unfold binary_round. destruct (shl_align _ _ _).
  by apply binary_round_aux_sign.
Qed.

Lemma SFopp_sign s x : sf_has_sign s x → sf_has_sign (negb s) (SFopp x).
Proof. destruct x; simpl; try done; by intros ->. Qed.

Lemma SFmul_sign s x m e :
  sf_has_sign s x → sf_has_sign s (SF64mul x (S754_finite false m e)).
Proof.
  unfold SF64mul. destruct x as [s'|s'| |s' m' e']; simpl; try done.
  - intros ->. by rewrite xorb_false_r.
  - intros ->. rewrite xorb_false_r. by apply binary_round_aux_sign.
Qed.

Lemma digits2_pos_bounds (m : positive) :
  (2 ^ (Z.pos (digits2_pos m) - 1) ≤ Z.pos m < 2 ^ Z.pos (digits2_pos m))%Z.
Proof.
  induction m as [m IH|m IH|]; simpl digits2_pos; [| |simpl; lia].
  all: rewrite Pos2Z.inj_succ;
    replace (Z.succ (Z.pos (digits2_pos m)) - 1)%Z
      with (Z.succ (Z.pos (digits2_pos m) - 1)) by lia;
    rewrite !Z.pow_succ_r by lia; lia.
Qed.

Lemma iter_xO_pow (d m : positive) :
  Z.pos (Pos.iter xO m d) = (Z.pos m * 2 ^ Z.pos d)%Z.
Proof.
  revert m. induction d as [|d IH] using Pos.peano_ind; intros m.
  - simpl. lia.
  - rewrite Pos.iter_succ, Pos2Z.inj_succ, Z.pow_succ_r by lia.
    rewrite Pos2Z.inj_xO, IH. lia.
Qed.

(** A valid finite binary64 has a mantissa below 2^53, and of at least
    2^52 above the least exponent. *)
Lemma bounded_mantissa m e :
  bounded prec emax m e = true →
  (Z.pos m < 2 ^ 53)%Z ∧ ((-1074 < e)%Z → (2 ^ 52 ≤ Z.pos m)%Z).
Proof.
  unfold bounded, canonical_mantissa, fexp, SpecFloat.emin, prec, emax.
  rewrite andb_true_iff, Z.eqb_eq. intros [Hc _].
  pose proof (digits2_pos_bounds m) as [Hlo Hhi].
  assert (Z.pos (digits2_pos m) ≤ 53)%Z as Hd by lia.
  split.
  - eapply Z.lt_le_trans; [exact Hhi|]. apply Z.pow_le_mono_r; lia.
  - intros He. assert (Z.pos (digits2_pos m) = 53)%Z as Hd' by lia.
    rewrite Hd' in Hlo. exact Hlo.
Qed.

Lemma shl_align_fst m e e' :
  (e' ≤ e)%Z → Z.pos (fst (shl_align m e e')) = (Z.pos m * 2 ^ (e - e'))%Z.
Proof.
  intros He. unfold shl_align.
  destruct (e' - e)%Z as [|d|d] eqn:E; simpl; try lia.
  - replace (e - e')%Z with 0%Z by lia. lia.
  - rewrite iter_xO_pow. do 2 f_equal. lia.
Qed.

Lemma binary_normalize_sign d e :
  ((d ≤ 0)%Z → sf_has_sign true (binary_normalize prec emax d e false))
  ∧ ((0 ≤ d)%Z → sf_has_sign false (binary_normalize prec emax d e false)).
Proof.
  destruct d; simpl; split; try done; try lia; intros _; apply binary_round_sign.
Qed.

Section subtraction.

Variables (mk : positive) (ek : Z).
Hypothesis Hmk : (Z.pos mk = 2 ^ 52)%Z.
Hypothesis Hek : (-1074 ≤ ek)%Z.

Lemma SFsub_finite (s : bool) mx ex :
  SF64sub (S754_finite s mx ex) (S754_finite false mk ek)
  = binary_normalize prec emax
      (cond_Zopp s (Z.pos (fst (shl_align mx ex (Z.min ex ek))))
       - Z.pos (fst (shl_align mk ek (Z.min ex ek))))%Z
      (Z.min ex ek) false.
Proof. reflexivity. Qed.

Lemma SFsub_sign_le x :
  valid_binary x = true →
  SFleb x (S754_finite false mk ek) = true →
  sf_has_sign true (SF64sub x (S754_finite false mk ek)).
Proof using Hmk Hek.
  destruct x as [s|[]| |[] mx ex]; try done; intros Hv Hle;
    rewrite SFsub_finite; apply binary_normalize_sign;
    unfold cond_Zopp; [lia|].
  apply bounded_mantissa in Hv as [Hhi Hlo].
  rewrite !shl_align_fst by lia.
  unfold SFleb in Hle. simpl in Hle.
  change (Pos.compare_cont Eq mx mk) with (Pos.compare mx mk) in Hle.
  destruct (Z.compare_spec ex ek) as [->| |]; [| |done].
  - destruct (Pos.compare_spec mx mk); try done;
      rewrite Z.min_id, Z.sub_diag; lia.
  - rewrite Z.min_l by lia. rewrite Z.sub_diag, Hmk.
    assert (2 ^ 1 ≤ 2 ^ (ek - ex))%Z by (apply Z.pow_le_mono_r; lia).
    nia.
Qed.

Lemma SFsub_sign_ge x :
  valid_binary x = true →
  SFleb (S754_finite false mk ek) x = true →
  sf_has_sign false (SF64sub x (S754_finite false mk ek)).
Proof using Hmk Hek.
  destruct x as [s|[]| |[] mx ex]; try done; intros Hv Hle.
  rewrite SFsub_finite; apply binary_normalize_sign; unfold cond_Zopp.
  apply bounded_mantissa in Hv as [Hhi Hlo].
  rewrite !shl_align_fst by lia.
  unfold SFleb in Hle. simpl in Hle.
  change (Pos.compare_cont Eq mk mx) with (Pos.compare mk mx) in Hle.
  destruct (Z.compare_spec ek ex) as [->| |]; [| |done].
  - destruct (Pos.compare_spec mk mx); try done;
      rewrite Z.min_id, Z.sub_diag; lia.
  - rewrite Z.min_r by lia. rewrite Z.sub_diag, Hmk.
    assert (2 ^ 1 ≤ 2 ^ (ex - ek))%Z by (apply Z.pow_le_mono_r; lia).
    assert (-1074 < ex)%Z as Hex by lia. specialize (Hlo Hex). nia.
Qed.

End subtraction.

(** The sign of [-(x - k) * 5] for [k] one of the constants 1.0 and 0.5. *)
Lemma float_affine_nonneg (x k : float) :
  k = 1%float ∨ k = 0.5%float →
  (x <=? k)%float = true → (0 <=? - (x - k) * 5)%float = true.
Proof.
  intros Hk Hle. apply sf_nonneg_leb.
  rewrite mul_spec, opp_spec, sub_spec. rewrite leb_spec in Hle.
  change (Prim2SF 5%float) with (S754_finite false 5629499534213120 (-50)).
  apply SFmul_sign, (SFopp_sign true).
  destruct Hk as [-> | ->].
  - change (Prim2SF 1%float) with (S754_finite false 4503599627370496 (-52)) in *.
    apply SFsub_sign_le; [done|done|apply Prim2SF_valid|done].
  - change (Prim2SF 0.5%float) with (S754_finite false 4503599627370496 (-53)) in *.
    apply SFsub_sign_le; [done|done|apply Prim2SF_valid|done].
Qed.

Lemma float_affine_nonpos (x k : float) :
  k = 1%float ∨ k = 0.5%float →
  (k <=? x)%float = true → (- (x - k) * 5 <=? 0)%float = true.
Proof.
  intros Hk Hle. apply sf_nonpos_leb.
  rewrite mul_spec, opp_spec, sub_spec. rewrite leb_spec in Hle.
  change (Prim2SF 5%float) with (S754_finite false 5629499534213120 (-50)).
  apply SFmul_sign, (SFopp_sign false).
  destruct Hk as [-> | ->].
  - change (Prim2SF 1%float) with (S754_finite false 4503599627370496 (-52)) in *.
    apply SFsub_sign_ge; [done|done|apply Prim2SF_valid|done].
  - change (Prim2SF 0.5%float) with (S754_finite false 4503599627370496 (-53)) in *.
    apply SFsub_sign_ge; [done|done|apply Prim2SF_valid|done].
Qed.

Lemma float_scale_nonpos (x : float) :
  (0 <=? x)%float = true → (- x * 5 <=? 0)%float = true.
Proof.
  intros Hx. apply sf_nonpos_leb. rewrite mul_spec, opp_spec.
  change (Prim2SF 5%float) with (S754_finite false 5629499534213120 (-50)).
  apply SFmul_sign, (SFopp_sign false). by apply sf_nonneg_leb.
Qed.

Lemma float_scale_nonneg (x : float) :
  (x <=? 0)%float = true → (0 <=? - x * 5)%float = true.
Proof.
  intros Hx. apply sf_nonneg_leb. rewrite mul_spec, opp_spec.
  change (Prim2SF 5%float) with (S754_finite false 5629499534213120 (-50)).
  apply SFmul_sign, (SFopp_sign true). by apply sf_nonpos_leb.
Qed.

(** ** The policies, entry by entry *)

Section policy_extras.

Variable self : simulation.
Variables actors_priority avg_incomes water_pump avg_pump is_crisis
  water_flows quota DOE DCR : pyval.

Lemma Forall2_map_r_pointwise {A B} (P : A → B → Prop) (f : A → B) (a : list A) :
  (∀ x, P x (f x)) → Forall2 P a (map f a).
Proof. intros H. induction a; simpl; constructor; auto. Qed.

(** X5. The sign of an adjustment is exact in binary64: the fine is [>= 0]
    for an action [<= 1] and [<= 0] for an action [>= 1], the mixed
    response is [>= 0] for an action [<= 0.5] and [<= 0] for an action
    [>= 0.5], and the subvention is [<= 0] for an action [>= 0] and [>= 0]
    for an action [<= 0]. *)
Theorem adjustment_signs (a : list float) :
  (∃ out, subvention_policy self a actors_priority avg_incomes water_pump
            avg_pump is_crisis water_flows quota DOE DCR = Return out
     ∧ Forall2 (λ x y, ((0 <=? x)%float = true → (y <=? 0)%float = true)
                       ∧ ((x <=? 0)%float = true → (0 <=? y)%float = true))
         a out)
  ∧ (∃ out, fine_policy self a actors_priority avg_incomes water_pump
              avg_pump is_crisis water_flows quota DOE DCR = Return out
       ∧ Forall2 (λ x y, ((x <=? 1)%float = true → (0 <=? y)%float = true)
                         ∧ ((1 <=? x)%float = true → (y <=? 0)%float = true))
           a out)
  ∧ (∃ out, mixed_policy self a actors_priority avg_incomes water_pump
              avg_pump is_crisis water_flows quota DOE DCR = Return out
       ∧ Forall2 (λ x y, ((x <=? 0.5)%float = true → (0 <=? y)%float = true)
                         ∧ ((0.5 <=? x)%float = true → (y <=? 0)%float = true))
           a out).
Proof.
  split_and!; eexists.
  - split; [apply subvention_policy_eq|].
    apply Forall2_map_r_pointwise. intros x.
    split; [apply float_scale_nonpos|apply float_scale_nonneg].
  - split; [apply fine_policy_eq|].
    apply Forall2_map_r_pointwise. intros x.
    split; [apply float_affine_nonneg|apply float_affine_nonpos]; by left.
  - split; [apply mixed_policy_eq|].
    apply Forall2_map_r_pointwise. intros x.
    split; [apply float_affine_nonneg|apply float_affine_nonpos]; by right.
Qed.

Lemma is_nan_affine (x k c : float) :
  sf_finite (Prim2SF k) = true → sf_finite (Prim2SF c) = true →
  (c =? 0)%float = false →
  PrimFloat.is_nan (- (x - k) * c) = PrimFloat.is_nan x.
Proof.
  intros Hk Hc Hz. destruct (PrimFloat.is_nan x) eqn:Hx.
  - by apply float_affine_nan.
  - by apply float_affine_not_nan.
Qed.

Lemma is_nan_scale (x c : float) :
  sf_finite (Prim2SF c) = true → (c =? 0)%float = false →
  PrimFloat.is_nan (- x * c) = PrimFloat.is_nan x.
Proof.
  intros Hc Hz. destruct (PrimFloat.is_nan x) eqn:Hx.
  - by apply float_scale_nan.
  - by apply float_scale_not_nan.
Qed.

(** X6. An adjustment is NaN exactly where the action is NaN: the three
    affine policies make no NaN out of a number or an infinity. *)
Theorem adjustment_is_nan_where_the_action_is (a : list float) :
  (∃ out, subvention_policy self a actors_priority avg_incomes water_pump
            avg_pump is_crisis water_flows quota DOE DCR = Return out
     ∧ map PrimFloat.is_nan out = map PrimFloat.is_nan a)
  ∧ (∃ out, fine_policy self a actors_priority avg_incomes water_pump
              avg_pump is_crisis water_flows quota DOE DCR = Return out
       ∧ map PrimFloat.is_nan out = map PrimFloat.is_nan a)
  ∧ (∃ out, mixed_policy self a actors_priority avg_incomes water_pump
              avg_pump is_crisis water_flows quota DOE DCR = Return out
       ∧ map PrimFloat.is_nan out = map PrimFloat.is_nan a).
Proof.
  split_and!; eexists.
  - split; [apply subvention_policy_eq|]. rewrite map_map.
    apply map_ext. intros x. apply is_nan_scale; by vm_compute.
  - split; [apply fine_policy_eq|]. rewrite map_map.
    apply map_ext. intros x. apply is_nan_affine; by vm_compute.
  - split; [apply mixed_policy_eq|]. rewrite map_map.
    apply map_ext. intros x. apply is_nan_affine; by vm_compute.
Qed.

(** X7. An actor's adjustment depends on that actor's action only:
    replacing the action of actor [j] leaves the adjustment of every
    other actor, and the length of the result, as they were. *)
Theorem adjustment_depends_on_own_action (a : list float) (j : nat)
    (x : float) :
  (∃ out out',
     subvention_policy self a actors_priority avg_incomes water_pump
       avg_pump is_crisis water_flows quota DOE DCR = Return out
     ∧ subvention_policy self (<[j := x]> a) actors_priority avg_incomes
         water_pump avg_pump is_crisis water_flows quota DOE DCR
       = Return out'
     ∧ length out' = length out
     ∧ ∀ i, i ≠ j → out' !! i = out !! i)
  ∧ (∃ out out',
       fine_policy self a actors_priority avg_incomes water_pump
         avg_pump is_crisis water_flows quota DOE DCR = Return out
       ∧ fine_policy self (<[j := x]> a) actors_priority avg_incomes
           water_pump avg_pump is_crisis water_flows quota DOE DCR
         = Return out'
       ∧ length out' = length out
       ∧ ∀ i, i ≠ j → out' !! i = out !! i)
  ∧ (∃ out out',
       mixed_policy self a actors_priority avg_incomes water_pump
         avg_pump is_crisis water_flows quota DOE DCR = Return out
       ∧ mixed_policy self (<[j := x]> a) actors_priority avg_incomes
           water_pump avg_pump is_crisis water_flows quota DOE DCR
         = Return out'
       ∧ length out' = length out
       ∧ ∀ i, i ≠ j → out' !! i = out !! i).
Proof.
  split_and!; eexists _, _.
  - split; [apply subvention_policy_eq|]. split; [apply subvention_policy_eq|].
    split; [by rewrite !length_map, length_insert|].
    intros i Hi. by rewrite !list_lookup_fmap, list_lookup_insert_ne.
  - split; [apply fine_policy_eq|]. split; [apply fine_policy_eq|].
    split; [by rewrite !length_map, length_insert|].
    intros i Hi. by rewrite !list_lookup_fmap, list_lookup_insert_ne.
  - split; [apply mixed_policy_eq|]. split; [apply mixed_policy_eq|].
    split; [by rewrite !length_map, length_insert|].
    intros i Hi. by rewrite !list_lookup_fmap, list_lookup_insert_ne.
Qed.

End policy_extras.

(** ** The consistency law, up to rounding

    The value of what [binary_round_aux] returns is within half a unit of
    the last place of the value it was given; from there, the value of a
    difference and of a product of two numbers, and of what the policies
    compute for an action between 0 and 1. *)

(** One step of the shift keeps the account of the bits that are gone. *)
Lemma shr_1_inv M h mrs :
  (0 < h)%Z → shr_inv M h mrs → shr_inv M (2 * h) (shr_1 mrs).
Proof.
  intros Hh [Hm (ρ & HM & Hρ & Hloc)].
  destruct mrs as [m r s]. unfold shr_inv, shr_1.
  cbn [shr_m shr_r shr_s] in *.
  destruct m as [|[p|p|]|p]; try lia; cbn [shr_m shr_r shr_s];
    (split; [lia|]).
  - exists ρ. destruct r, s; cbn [loc_rel orb] in *; split_and!; lia.
  - exists (h + ρ)%Z. destruct r, s; cbn [loc_rel orb] in *; split_and!; lia.
  - exists ρ. destruct r, s; cbn [loc_rel orb] in *; split_and!; lia.
  - exists (h + ρ)%Z. destruct r, s; cbn [loc_rel orb] in *; split_and!; lia.
Qed.

Lemma iter_shr_1_inv M (p : positive) : ∀ h mrs,
  (0 < h)%Z → shr_inv M h mrs →
  shr_inv M (h * 2 ^ Z.pos p) (SpecFloat.iter_pos shr_1 p mrs).
Proof.
  induction p as [p IH|p IH|]; intros h mrs Hh H; simpl SpecFloat.iter_pos.
  - apply shr_1_inv in H; [|done].
    apply IH in H; [|lia]. apply IH in H; [|nia].
    replace (h * 2 ^ Z.pos p~1)%Z with (2 * h * 2 ^ Z.pos p * 2 ^ Z.pos p)%Z;
      [done|].
    rewrite Pos2Z.inj_xI, Z.pow_add_r, Z.pow_mul_r by lia.
    replace (2 ^ 2)%Z with 4%Z by done.
    replace (4 ^ Z.pos p)%Z with (2 ^ Z.pos p * 2 ^ Z.pos p)%Z; [ring|].
    rewrite <- Z.pow_add_r by lia.
    replace (Z.pos p + Z.pos p)%Z with (2 * Z.pos p)%Z by lia.
    rewrite Z.pow_mul_r by lia. done.
  - apply IH in H; [|lia]. apply IH in H; [|nia].
    replace (h * 2 ^ Z.pos p~0)%Z with (h * 2 ^ Z.pos p * 2 ^ Z.pos p)%Z;
      [done|].
    rewrite Pos2Z.inj_xO. rewrite <- Z.mul_assoc, <- Z.pow_add_r by lia.
    do 2 f_equal. lia.
  - apply shr_1_inv in H; [|done]. by rewrite Z.mul_comm.
Qed.

(** Powers of two. *)
Lemma pow2_pos e : (0 < pow2 e)%Q.
Proof. apply Qpower_0_lt. reflexivity. Qed.

Lemma pow2_add a b : (pow2 (a + b) == pow2 a * pow2 b)%Q.
Proof. apply Qpower_plus. discriminate. Qed.

Lemma pow2_Z n : (0 ≤ n)%Z → (pow2 n == inject_Z (2 ^ n))%Q.
Proof. intros H. unfold pow2. by rewrite Zpower_Qpower. Qed.

Lemma pow2_le a b : (a ≤ b)%Z → (pow2 a <= pow2 b)%Q.
Proof. intros H. apply Qpower_le_compat_l; [done|discriminate]. Qed.

Lemma pow2_lt_inv a b : (pow2 a < pow2 b)%Q → (a < b)%Z.
Proof. intros H. eapply Qpower_lt_compat_l_inv; [exact H|reflexivity]. Qed.

Lemma pow2_succ e : (pow2 (e + 1) == 2 * pow2 e)%Q.
Proof. rewrite pow2_add. unfold pow2 at 2. simpl. ring. Qed.

(** Rounding to nearest moves the mantissa by at most half a unit. *)
Lemma round_nearest_even_inv M h mrs :
  (0 < h)%Z → shr_inv M h mrs →
  (Z.abs (2 * (round_nearest_even (shr_m mrs) (loc_of_shr_record mrs) * h - M))
   ≤ h)%Z
  ∧ (shr_m mrs ≤ round_nearest_even (shr_m mrs) (loc_of_shr_record mrs)
     ≤ shr_m mrs + 1)%Z.
Proof.
  intros Hh [Hm (ρ & HM & Hρ & Hloc)].
  destruct mrs as [m r s]. cbn [shr_m shr_r shr_s] in *.
  destruct r, s; cbn [loc_rel loc_of_shr_record round_nearest_even] in *;
    try destruct (Z.even m); split; nia.
Qed.

(** The first component of [shr_fexp]: the mantissa with the bits that do
    not fit shifted out, and the exponent raised by their number. *)
Lemma shr_fexp_inv (M e : Z) mrs e1 :
  (0 ≤ M)%Z →
  shr_fexp prec emax M e loc_Exact = (mrs, e1) →
  e1 = Z.max e (fexp prec emax (Zdigits2 M + e))
  ∧ shr_inv M (2 ^ (e1 - e)) mrs.
Proof.
  intros HM. unfold shr_fexp, shr. cbn [shr_record_of_loc].
  assert (shr_inv M 1 {| shr_m := M; shr_r := false; shr_s := false |}) as H0.
  { split; [done|]. exists 0%Z. cbn. split_and!; lia. }
  destruct (fexp prec emax (Zdigits2 M + e) - e)%Z as [|p|p] eqn:E;
    intros [= <- <-].
  - split; [lia|]. by rewrite Z.sub_diag.
  - split; [lia|]. replace (e + Z.pos p - e)%Z with (Z.pos p) by lia.
    apply (iter_shr_1_inv M p 1) in H0; [|lia].
    by rewrite Z.mul_1_l in H0.
  - split; [lia|]. by rewrite Z.sub_diag.
Qed.

Lemma fexp_eq z : fexp prec emax z = Z.max (z - 53) (-1074).
Proof. reflexivity. Qed.

Lemma digits_le (p : positive) (n : Z) :
  (Z.pos p < 2 ^ n)%Z → (Z.pos (digits2_pos p) ≤ n)%Z.
Proof.
  intros H. pose proof (digits2_pos_bounds p) as [Hlo _].
  destruct (decide (n < 0)%Z) as [Hn|Hn].
  { rewrite Z.pow_neg_r in H by done. lia. }
  assert (2 ^ (Z.pos (digits2_pos p) - 1) < 2 ^ n)%Z as Hlt by lia.
  apply Z.pow_lt_mono_r_iff in Hlt; lia.
Qed.

(** Stage one of the rounding, on the integers. *)
Lemma round_stage_one (m : positive) (e : Z) mrs e1 :
  shr_fexp prec emax (Z.pos m) e loc_Exact = (mrs, e1) →
  let m1 := round_nearest_even (shr_m mrs) (loc_of_shr_record mrs) in
  (e ≤ e1)%Z ∧ (-1074 ≤ e1)%Z
  ∧ (0 ≤ m1 ≤ 2 ^ 53)%Z
  ∧ (Z.abs (2 * (m1 * 2 ^ (e1 - e) - Z.pos m)) ≤ 2 ^ (e1 - e))%Z
  ∧ (e1 = e ∨ e1 = Z.max (Z.pos (digits2_pos m) + e - 53) (-1074))%Z.
Proof.
  intros H1 m1. apply shr_fexp_inv in H1 as [He1 Hinv]; [|lia].
  rewrite fexp_eq in He1. cbn [Zdigits2] in He1.
  set (d := Z.pos (digits2_pos m)) in *.
  pose proof (digits2_pos_bounds m) as [Hlo Hhi]. fold d in Hlo, Hhi.
  assert (0 < 2 ^ (e1 - e))%Z as Hh by (apply Z.pow_pos_nonneg; lia).
  destruct (round_nearest_even_inv _ _ _ Hh Hinv) as [Herr Hm1].
  fold m1 in Herr, Hm1.
  destruct Hinv as [Hm (ρ & HM & Hρ & _)].
  split; [lia|]. split; [lia|]. split_and!; [lia| |done|lia].
  assert (2 ^ d ≤ 2 ^ 53 * 2 ^ (e1 - e))%Z as Hd.
  { rewrite <- Z.pow_add_r by lia. apply Z.pow_le_mono_r; lia. }
  set (h := (2 ^ (e1 - e))%Z) in *.
  assert (shr_m mrs < 2 ^ 53)%Z by nia. lia.
Qed.

(** Stage two: the rounded mantissa is kept, or halved when it reached
    2^53. *)
Lemma round_stage_two (m1 e1 : Z) mrs2 e2 :
  (0 ≤ m1 ≤ 2 ^ 53)%Z → (-1074 ≤ e1)%Z →
  shr_fexp prec emax m1 e1 loc_Exact = (mrs2, e2) →
  (0 ≤ shr_m mrs2)%Z ∧ (e1 ≤ e2)%Z
  ∧ (shr_m mrs2 * 2 ^ (e2 - e1) = m1)%Z.
Proof.
  intros Hm1 He1 H2. apply shr_fexp_inv in H2 as [He2 Hinv]; [|lia].
  rewrite fexp_eq in He2.
  destruct Hinv as [Hm (ρ & HM & Hρ & _)].
  split; [done|]. split; [lia|].
  destruct m1 as [|p|p]; [| |lia].
  - cbn [Zdigits2] in He2.
    replace e2 with e1 in * by lia. rewrite Z.sub_diag in *.
    change (2 ^ 0)%Z with 1%Z in *. lia.
  - cbn [Zdigits2] in He2.
    destruct (decide (Z.pos p = 2 ^ 53)%Z) as [E|NE].
    + assert (Z.pos (digits2_pos p) = 54)%Z as Hd.
      { pose proof (digits2_pos_bounds p) as [Hlo Hhi]. rewrite E in Hlo, Hhi.
        apply Z.pow_le_mono_r_iff in Hlo; [|lia..].
        apply Z.pow_lt_mono_r_iff in Hhi; lia. }
      rewrite Hd in He2. replace e2 with (e1 + 1)%Z in * by lia.
      replace (e1 + 1 - e1)%Z with 1%Z in * by lia.
      change (2 ^ 1)%Z with 2%Z in *. rewrite E in *.
      change (2 ^ 53)%Z with 9007199254740992%Z in *. lia.
    + assert (Z.pos (digits2_pos p) ≤ 53)%Z as Hd by (apply digits_le; lia).
      replace e2 with e1 in * by lia. rewrite Z.sub_diag in *.
      change (2 ^ 0)%Z with 1%Z in *. lia.
Qed.

Lemma pow2_sub_Z (a b : Z) :
  (b ≤ a)%Z → (pow2 a == inject_Z (2 ^ (a - b)) * pow2 b)%Q.
Proof.
  intros H. rewrite <- pow2_Z by lia. rewrite <- pow2_add.
  by replace (a - b + b)%Z with a by lia.
Qed.

Lemma Qabs_inject_Z (z : Z) : Qabs (inject_Z z) = inject_Z (Z.abs z).
Proof. reflexivity. Qed.

(** A mantissa of [d] digits at exponent [e] is worth at least
    2^(d-1+e). *)
Lemma digits_below (m : positive) (e k : Z) :
  (inject_Z (Z.pos m) * pow2 e < pow2 k)%Q →
  (Z.pos (digits2_pos m) + e ≤ k)%Z.
Proof.
  intros H. pose proof (digits2_pos_bounds m) as [Hlo _].
  set (d := Z.pos (digits2_pos m)) in *.
  assert (pow2 (d - 1 + e) < pow2 k)%Q as Hlt.
  { eapply Qle_lt_trans; [|exact H]. rewrite pow2_add.
    apply Qmult_le_compat_r; [|apply Qlt_le_weak, pow2_pos].
    rewrite pow2_Z by lia. by rewrite <- Zle_Qle. }
  apply pow2_lt_inv in Hlt. lia.
Qed.

Lemma sf_val_finite s m e :
  sf_val (S754_finite s m e)
  = (inject_Z (cond_Zopp s (Z.pos m)) * pow2 e)%Q.
Proof. reflexivity. Qed.

Lemma Qabs_cond_Zopp_diff s (c d : Q) (x y : Z) :
  (Qabs (inject_Z (cond_Zopp s x) * c - inject_Z (cond_Zopp s y) * d)
   == Qabs (inject_Z x * c - inject_Z y * d))%Q.
Proof.
  destruct s; cbn [cond_Zopp]; [|reflexivity].
  rewrite !inject_Z_opp.
  assert (- inject_Z x * c - - inject_Z y * d
          == - (inject_Z x * c - inject_Z y * d))%Q as -> by ring.
  apply Qabs_opp.
Qed.

(** The rounding of [m * 2^e], below [2^k] in magnitude: the result is a
    number, within [2^(k-54)] of it. *)
Lemma binary_round_aux_val (s : bool) (m : positive) (e k : Z) :
  (-1021 ≤ k ≤ 971)%Z →
  (inject_Z (Z.pos m) * pow2 e < pow2 k)%Q →
  sf_finite (binary_round_aux prec emax s (Z.pos m) e loc_Exact) = true
  ∧ (Qabs (sf_val (binary_round_aux prec emax s (Z.pos m) e loc_Exact)
           - inject_Z (cond_Zopp s (Z.pos m)) * pow2 e)
     <= pow2 (k - 54))%Q.
Proof.
  intros Hk Hlt. unfold binary_round_aux.
  destruct (shr_fexp prec emax (Z.pos m) e loc_Exact) as [mrs e1] eqn:H1.
  apply round_stage_one in H1. cbv zeta in H1.
  set (m1 := round_nearest_even (shr_m mrs) (loc_of_shr_record mrs)) in *.
  destruct H1 as (Hee1 & He1 & Hm1 & Herr & Hcase).
  destruct (shr_fexp prec emax m1 e1 loc_Exact) as [mrs2 e2] eqn:H2.
  apply round_stage_two in H2 as (Hm2 & He2 & Hval2); [|done..].
  pose proof (digits_below m e k Hlt) as Hd.
  (* the value after both stages, against the exact one *)
  assert (Qabs (inject_Z (shr_m mrs2) * pow2 e2 - inject_Z (Z.pos m) * pow2 e)
          <= pow2 (k - 54))%Q as Hq.
  { rewrite (pow2_sub_Z e2 e1) by done.
    rewrite Qmult_assoc, <- inject_Z_mult, Hval2.
    destruct (decide (e1 = e)) as [->|Hne].
    - rewrite Z.sub_diag in Herr. change (2 ^ 0)%Z with 1%Z in Herr.
      assert (m1 = Z.pos m) as -> by lia.
      assert (inject_Z (Z.pos m) * pow2 e - inject_Z (Z.pos m) * pow2 e
              == 0)%Q as -> by ring.
      apply Qlt_le_weak, pow2_pos.
    - assert (e1 ≤ k - 53)%Z as He1k by lia.
      rewrite (pow2_sub_Z e1 e) by done.
      assert (inject_Z m1 * (inject_Z (2 ^ (e1 - e)) * pow2 e)
              - inject_Z (Z.pos m) * pow2 e
              == inject_Z (m1 * 2 ^ (e1 - e) - Z.pos m) * pow2 e)%Q as ->.
      { unfold Z.sub. rewrite inject_Z_plus, inject_Z_mult, inject_Z_opp.
        ring. }
      rewrite Qabs_Qmult, Qabs_inject_Z.
      rewrite (Qabs_pos (pow2 e)) by apply Qlt_le_weak, pow2_pos.
      assert (2 * Z.abs (m1 * 2 ^ (e1 - e) - Z.pos m) ≤ 2 ^ (e1 - e))%Z
        as Herr' by lia.
      apply (Qmult_le_l _ _ 2); [reflexivity|].
      rewrite Qmult_assoc.
      change 2%Q with (inject_Z 2) at 1. rewrite <- inject_Z_mult.
      eapply Qle_trans.
      + apply Qmult_le_compat_r; [|apply Qlt_le_weak, pow2_pos].
        rewrite <- Zle_Qle. exact Herr'.
      + rewrite <- pow2_sub_Z by done. rewrite <- pow2_succ.
        apply pow2_le. lia. }
  destruct (shr_m mrs2) as [|m2|m2] eqn:Em2; [| |lia].
  - split; [done|]. cbn [sf_val].
    assert (0 - inject_Z (cond_Zopp s (Z.pos m)) * pow2 e
            == inject_Z (cond_Zopp s 0) * pow2 e2
               - inject_Z (cond_Zopp s (Z.pos m)) * pow2 e)%Q as ->.
    { destruct s; cbn [cond_Zopp]; change (inject_Z (- 0)) with 0%Q;
        change (inject_Z 0) with 0%Q; ring. }
    by rewrite Qabs_cond_Zopp_diff.
  - assert (e2 ≤ 971)%Z as He2k.
    { apply Qabs_Qle_condition in Hq as [_ Hq].
      assert (pow2 e2 < pow2 (k + 1))%Q as Hp.
      { rewrite pow2_succ.
        assert (pow2 (k - 54) <= pow2 k)%Q by (apply pow2_le; lia).
        assert (pow2 e2 <= inject_Z (Z.pos m2) * pow2 e2)%Q.
        { rewrite <- (Qmult_1_l (pow2 e2)) at 1.
          apply Qmult_le_compat_r; [|apply Qlt_le_weak, pow2_pos].
          change 1%Q with (inject_Z 1). rewrite <- Zle_Qle. lia. }
        lra. }
      apply pow2_lt_inv in Hp. lia. }
    change (emax - prec)%Z with 971%Z.
    rewrite (proj2 (Z.leb_le e2 971)) by done.
    split; [done|]. rewrite sf_val_finite.
    by rewrite Qabs_cond_Zopp_diff.
Qed.

(** Aligning a mantissa to a lower exponent keeps the value. *)
Lemma shl_align_val m e e' :
  (inject_Z (Z.pos (shl_align m e e').1) * pow2 (shl_align m e e').2
   == inject_Z (Z.pos m) * pow2 e)%Q.
Proof.
  unfold shl_align. destruct (e' - e)%Z as [|d|d] eqn:E; cbn [fst snd];
    try reflexivity.
  rewrite iter_xO_pow, inject_Z_mult, (pow2_sub_Z e e') by lia.
  replace (e - e')%Z with (Z.pos d) by lia. ring.
Qed.

Lemma binary_round_val (s : bool) (m : positive) (e k : Z) :
  (-1021 ≤ k ≤ 971)%Z →
  (inject_Z (Z.pos m) * pow2 e < pow2 k)%Q →
  sf_finite (binary_round prec emax s m e) = true
  ∧ (Qabs (sf_val (binary_round prec emax s m e)
           - inject_Z (cond_Zopp s (Z.pos m)) * pow2 e)
     <= pow2 (k - 54))%Q.
Proof.
  intros Hk Hlt. unfold binary_round.
  pose proof (shl_align_val m e
                (fexp prec emax (Z.pos (digits2_pos m) + e))) as Hv.
  destruct (shl_align _ _ _) as [mz ez]. cbn [fst snd] in Hv.
  rewrite <- Hv in Hlt.
  destruct (binary_round_aux_val s mz ez k Hk Hlt) as [Hf Hq].
  split; [done|].
  assert (inject_Z (cond_Zopp s (Z.pos m)) * pow2 e
          == inject_Z (cond_Zopp s (Z.pos mz)) * pow2 ez)%Q as ->; [|done].
  destruct s; cbn [cond_Zopp]; [|by rewrite Hv].
  change (Z.neg m) with (- Z.pos m)%Z. change (Z.neg mz) with (- Z.pos mz)%Z.
  rewrite !inject_Z_opp.
  assert (∀ a b : Q, - a * b == - (a * b))%Q as Hopp by (intros; ring).
  by rewrite !Hopp, Hv.
Qed.

(** The rounding of an integer multiple [d] of [2^e]. *)
Lemma binary_normalize_val (d e k : Z) :
  (-1021 ≤ k ≤ 971)%Z →
  (Qabs (inject_Z d * pow2 e) < pow2 k)%Q →
  sf_finite (binary_normalize prec emax d e false) = true
  ∧ (Qabs (sf_val (binary_normalize prec emax d e false)
           - inject_Z d * pow2 e)
     <= pow2 (k - 54))%Q.
Proof.
  intros Hk Hlt.
  assert (Qabs (inject_Z d * pow2 e) == inject_Z (Z.abs d) * pow2 e)%Q as Ha.
  { rewrite Qabs_Qmult, Qabs_inject_Z.
    by rewrite (Qabs_pos (pow2 e)) by apply Qlt_le_weak, pow2_pos. }
  rewrite Ha in Hlt.
  destruct d as [|m|m]; cbn [binary_normalize].
  - split; [done|]. cbn [sf_val].
    assert (0 - inject_Z 0 * pow2 e == 0)%Q as -> by ring.
    apply Qlt_le_weak, pow2_pos.
  - exact (binary_round_val false m e k Hk Hlt).
  - exact (binary_round_val true m e k Hk Hlt).
Qed.

Lemma shl_align_snd m e e' : (e' ≤ e)%Z → (shl_align m e e').2 = e'.
Proof.
  intros H. unfold shl_align. destruct (e' - e)%Z eqn:E; cbn [snd]; lia.
Qed.

Lemma inject_Z_cond_Zopp s z (q : Q) :
  (inject_Z (cond_Zopp s z) * q
   == (if s then - (inject_Z z * q) else inject_Z z * q))%Q.
Proof.
  destruct s; cbn [cond_Zopp]; [rewrite inject_Z_opp; ring|reflexivity].
Qed.

Lemma SFopp_val x : (sf_val (SFopp x) == - sf_val x)%Q.
Proof.
  destruct x as [| | |s m e]; cbn [SFopp sf_val]; try reflexivity.
  rewrite !inject_Z_cond_Zopp. destruct s; cbn [negb]; ring.
Qed.

Lemma SFopp_finite x : sf_finite (SFopp x) = sf_finite x.
Proof. by destruct x. Qed.

(** Subtraction: the difference of the values, rounded. *)
Lemma SFsub_val x y (k : Z) :
  sf_finite x = true → sf_finite y = true →
  (-1021 ≤ k ≤ 971)%Z →
  (Qabs (sf_val x - sf_val y) < pow2 k)%Q →
  sf_finite (SFsub prec emax x y) = true
  ∧ (Qabs (sf_val (SFsub prec emax x y) - (sf_val x - sf_val y))
     <= pow2 (k - 54))%Q.
Proof.
  intros Hx Hy Hk Hlt.
  assert (∀ q : Q, q == 0 → Qabs q <= pow2 (k - 54))%Q as Hzero.
  { intros q ->. apply Qlt_le_weak, pow2_pos. }
  destruct x as [sx| | |sx mx ex], y as [sy| | |sy my ey]; try done.
  - split; [by destruct sx, sy|]. apply Hzero.
    destruct sx, sy; cbn [SFsub sf_val]; ring.
  - cbn [SFsub]. split; [done|]. apply Hzero.
    rewrite !sf_val_finite, !inject_Z_cond_Zopp. cbn [sf_val].
    destruct sy; cbn [negb]; ring.
  - cbn [SFsub]. split; [done|]. apply Hzero. cbn [sf_val]. ring.
  - cbn [SFsub]. cbv zeta.
    set (ez := Z.min ex ey).
    pose proof (shl_align_val mx ex ez) as Hvx.
    pose proof (shl_align_val my ey ez) as Hvy.
    rewrite shl_align_snd in Hvx, Hvy by lia.
    set (ax := Z.pos (shl_align mx ex ez).1) in *.
    set (ay := Z.pos (shl_align my ey ez).1) in *.
    assert (inject_Z (cond_Zopp sx ax - cond_Zopp sy ay) * pow2 ez
            == sf_val (S754_finite sx mx ex) - sf_val (S754_finite sy my ey))%Q
      as Hd.
    { unfold Z.sub. rewrite inject_Z_plus, inject_Z_opp.
      rewrite !sf_val_finite, !inject_Z_cond_Zopp.
      assert (∀ a b c : Q, (a + - b) * c == a * c - b * c)%Q as ->
        by (intros; ring).
      rewrite !inject_Z_cond_Zopp.
      destruct sx, sy; rewrite Hvx, Hvy; reflexivity. }
    rewrite <- Hd in Hlt |- *.
    by apply binary_normalize_val.
Qed.

(** Multiplication: the product of the values, rounded. *)
Lemma SFmul_val x y (k : Z) :
  sf_finite x = true → sf_finite y = true →
  (-1021 ≤ k ≤ 971)%Z →
  (Qabs (sf_val x * sf_val y) < pow2 k)%Q →
  sf_finite (SFmul prec emax x y) = true
  ∧ (Qabs (sf_val (SFmul prec emax x y) - sf_val x * sf_val y)
     <= pow2 (k - 54))%Q.
Proof.
  intros Hx Hy Hk Hlt.
  assert (∀ q : Q, q == 0 → Qabs q <= pow2 (k - 54))%Q as Hzero.
  { intros q ->. apply Qlt_le_weak, pow2_pos. }
  destruct x as [sx| | |sx mx ex], y as [sy| | |sy my ey]; try done;
    cbn [SFmul].
  1-3: split; [done|]; apply Hzero; cbn [sf_val]; ring.
  assert (inject_Z (cond_Zopp (xorb sx sy) (Z.pos (mx * my))) * pow2 (ex + ey)
          == sf_val (S754_finite sx mx ex) * sf_val (S754_finite sy my ey))%Q
    as Hd.
  { rewrite !sf_val_finite, pow2_add, Pos2Z.inj_mul.
    rewrite !inject_Z_cond_Zopp, inject_Z_mult.
    destruct sx, sy; cbn [xorb]; ring. }
  rewrite <- Hd in Hlt |- *.
  apply binary_round_aux_val; [done|].
  rewrite Qabs_Qmult, Qabs_inject_Z in Hlt.
  rewrite (Qabs_pos (pow2 _)) in Hlt by apply Qlt_le_weak, pow2_pos.
  by destruct (xorb sx sy).
Qed.

(** The same on floats: a difference or a product of two numbers that is
    below [2^k] in magnitude is computed to within [2^(k-54)]. *)
Lemma float_sub_val (x y : float) (k : Z) :
  float_finite x = true → float_finite y = true →
  (-1021 ≤ k ≤ 971)%Z →
  (- pow2 k < float_val x - float_val y < pow2 k)%Q →
  float_finite (x - y) = true
  ∧ (float_val x - float_val y - pow2 (k - 54) <= float_val (x - y)
     <= float_val x - float_val y + pow2 (k - 54))%Q.
Proof.
  intros Hx Hy Hk Hlt. unfold float_finite, float_val in *.
  rewrite sub_spec. apply Qabs_Qlt_condition in Hlt.
  destruct (SFsub_val _ _ k Hx Hy Hk Hlt) as [Hf Hq].
  split; [exact Hf|]. apply Qabs_Qle_condition in Hq.
  unfold SF64sub. lra.
Qed.

Lemma float_mul_val (x y : float) (k : Z) :
  float_finite x = true → float_finite y = true →
  (-1021 ≤ k ≤ 971)%Z →
  (- pow2 k < float_val x * float_val y < pow2 k)%Q →
  float_finite (x * y) = true
  ∧ (float_val x * float_val y - pow2 (k - 54) <= float_val (x * y)
     <= float_val x * float_val y + pow2 (k - 54))%Q.
Proof.
  intros Hx Hy Hk Hlt. unfold float_finite, float_val in *.
  rewrite mul_spec. apply Qabs_Qlt_condition in Hlt.
  destruct (SFmul_val _ _ k Hx Hy Hk Hlt) as [Hf Hq].
  split; [exact Hf|]. apply Qabs_Qle_condition in Hq.
  unfold SF64mul. lra.
Qed.

Lemma float_opp_val (x : float) :
  float_finite (- x) = float_finite x
  ∧ (float_val (- x) == - float_val x)%Q.
Proof.
  unfold float_finite, float_val. rewrite opp_spec.
  split; [apply SFopp_finite|apply SFopp_val].
Qed.

Lemma one_val : (float_val 1 == 1)%Q.
Proof. reflexivity. Qed.

Lemma SFleb_one_val (m : positive) (e : Z) :
  (Z.pos m < 2 ^ 53)%Z →
  SFleb (S754_finite false m e) (S754_finite false 4503599627370496 (-52))
  = true →
  (inject_Z (Z.pos m) * pow2 e <= 1)%Q.
Proof.
  intros Hm H1. apply SFleb_key in H1 as (_ & _ & Hk).
  unfold key_le in Hk. cbn [sf_key fst snd] in Hk.
  assert (0 <= inject_Z (Z.pos m))%Q as Hm0.
  { change 0%Q with (inject_Z 0). rewrite <- Zle_Qle. lia. }
  assert (inject_Z 4503599627370496 * pow2 (-52) <= 1)%Q as H52
    by (vm_compute; discriminate).
  assert (inject_Z 9007199254740992 * pow2 (-53) <= 1)%Q as H53
    by (vm_compute; discriminate).
  change (2 ^ 53)%Z with 9007199254740992%Z in Hm.
  destruct (decide (e = -52)%Z) as [->|He].
  - assert (inject_Z (Z.pos m) <= inject_Z 4503599627370496)%Q as Hq
      by (rewrite <- Zle_Qle; lia).
    apply (Qmult_le_compat_r _ _ (pow2 (-52))) in Hq;
      [|apply Qlt_le_weak, pow2_pos].
    eapply Qle_trans; [exact Hq|exact H52].
  - assert (inject_Z (Z.pos m) <= inject_Z 9007199254740992)%Q as Hq
      by (rewrite <- Zle_Qle; lia).
    assert (pow2 e <= pow2 (-53))%Q as Hp by (apply pow2_le; lia).
    eapply Qle_trans; [|exact H53].
    apply Qmult_le_compat_nonneg.
    + split; [exact Hm0|exact Hq].
    + split; [apply Qlt_le_weak, pow2_pos|exact Hp].
Qed.

(** A float between 0 and 1 is a number, and its value is between 0
    and 1. *)
Lemma unit_interval_val (x : float) :
  (0 <=? x)%float = true → (x <=? 1)%float = true →
  float_finite x = true ∧ (0 <= float_val x <= 1)%Q.
Proof.
  intros H0 H1. unfold float_finite, float_val.
  rewrite leb_spec in H0, H1.
  pose proof (Prim2SF_valid x) as Hv.
  change (Prim2SF 0) with (S754_zero false) in H0.
  change (Prim2SF 1) with (S754_finite false 4503599627370496 (-52)) in H1.
  destruct (Prim2SF x) as [s|s| |s m e].
  { split; [reflexivity|]. cbn [sf_val]. lra. }
  { destruct s; discriminate. }
  { discriminate. }
  split; [reflexivity|]. destruct s; [discriminate|].
  rewrite sf_val_finite. cbn [cond_Zopp].
  apply bounded_mantissa in Hv as [Hm _].
  split.
  - apply Qmult_le_0_compat; [|apply Qlt_le_weak, pow2_pos].
    change 0%Q with (inject_Z 0). rewrite <- Zle_Qle. lia.
  - by apply SFleb_one_val.
Qed.

Lemma half_val : (float_val 0.5 == 1 # 2)%Q.
Proof. reflexivity. Qed.

Lemma five_val : (float_val 5 == 5)%Q.
Proof. reflexivity. Qed.

Lemma pow2_consts :
  (pow2 0 == 1 ∧ pow2 1 == 2 ∧ pow2 2 == 4 ∧ pow2 3 == 8
   ∧ pow2 (0 - 54) == u54 ∧ pow2 (1 - 54) == 2 * u54
   ∧ pow2 (2 - 54) == 4 * u54 ∧ pow2 (3 - 54) == 8 * u54)%Q.
Proof. split_and!; reflexivity. Qed.

(** One action between 0 and 1: the three adjustments against the exact
    formulas, and the two differences against 5/2 and against each
    other. *)
Lemma adjustments_up_to_rounding (x : float) :
  (0 <=? x)%float = true → (x <=? 1)%float = true →
  let f := (- (x - 1) * 5)%float in
  let m := (- (x - 0.5) * 5)%float in
  let s := (- x * 5)%float in
  (float_finite f = true ∧ float_finite m = true ∧ float_finite s = true
   ∧ float_finite (f - m) = true ∧ float_finite (m - s) = true)
  ∧ (Qabs (float_val f - 5 * (1 - float_val x)) <= 18 * u54
     ∧ Qabs (float_val m - 5 * ((1 # 2) - float_val x)) <= 9 * u54
     ∧ Qabs (float_val s - 5 * (0 - float_val x)) <= 8 * u54)%Q
  ∧ (Qabs (float_val (f - m) - (5 # 2)) <= 31 * u54
     ∧ Qabs (float_val (m - s) - (5 # 2)) <= 21 * u54
     ∧ Qabs (float_val (f - m) - float_val (m - s)) <= 52 * u54)%Q.
Proof.
  intros H0 H1 f m s.
  destruct (unit_interval_val x H0 H1) as [Fx Hx].
  destruct pow2_consts as (P0 & P1 & P2 & P3 & U0 & U1 & U2 & U3).
  assert (0 < u54 <= 1 # 1000)%Q as Hu by (split; [reflexivity|discriminate]).
  (* x - 1 *)
  destruct (float_sub_val x 1 1) as [F1 E1]; [done|reflexivity|lia| |].
  { rewrite one_val, P1. lra. }
  rewrite one_val, U1 in E1.
  destruct (float_opp_val (x - 1)) as [F1' E1']. rewrite F1 in F1'.
  destruct (float_mul_val (- (x - 1)) 5 3) as [Ff Ef];
    [done|reflexivity|lia| |].
  { rewrite five_val, E1', P3. lra. }
  rewrite five_val, E1', U3 in Ef. fold f in Ff, Ef.
  (* x - 0.5 *)
  destruct (float_sub_val x 0.5 0) as [F2 E2]; [done|reflexivity|lia| |].
  { rewrite half_val, P0. lra. }
  rewrite half_val, U0 in E2.
  destruct (float_opp_val (x - 0.5)) as [F2' E2']. rewrite F2 in F2'.
  destruct (float_mul_val (- (x - 0.5)) 5 2) as [Fm Em];
    [done|reflexivity|lia| |].
  { rewrite five_val, E2', P2. lra. }
  rewrite five_val, E2', U2 in Em. fold m in Fm, Em.
  (* - x *)
  destruct (float_opp_val x) as [F3' E3']. rewrite Fx in F3'.
  destruct (float_mul_val (- x) 5 3) as [Fs Es]; [done|reflexivity|lia| |].
  { rewrite five_val, E3', P3. lra. }
  rewrite five_val, E3', U3 in Es. fold s in Fs, Es.
  (* the differences *)
  destruct (float_sub_val f m 2) as [Fd1 Ed1]; [done|done|lia| |].
  { rewrite P2. lra. }
  rewrite U2 in Ed1.
  destruct (float_sub_val m s 2) as [Fd2 Ed2]; [done|done|lia| |].
  { rewrite P2. lra. }
  rewrite U2 in Ed2.
  split; [done|].
  split; (split_and!; apply Qabs_Qle_condition; lra).
Qed.

Lemma sub_of_maps (F G : float → float) (a : list float) :
  np.sub (map F a) (map G a) = map (λ x, (F x - G x)%float) a.
Proof.
  unfold np.sub. induction a as [|x a IH]; simpl; [done|]. by rewrite IH.
Qed.

(** C6, as the code has it. For every action vector with entries between
    0 and 1 the three policies return vectors of numbers, within 18, 9 and
    8 units of 2^-54 of 5(1 - a), 5(1/2 - a) and -5a; the differences
    fine - mixed and mixed - subvention that binary64 subtraction gives are
    numbers within 31 and 21 units of 2^-54 of 5/2, and so within 52
    units, less than 3e-15, of each other.  For the actions [0, 0.5, 1]
    fine is [5, 2.5, 0], mixed is [2.5, 0, -2.5], subvention is
    [0, -2.5, -5] and the two differences are equal. *)
Theorem consistency_law_up_to_rounding
    self p1 p2 p3 p4 p5 p6 p7 doe dcr :
  (∀ a : list float, unit_actions a →
     ∃ f m s,
       fine_policy self a p1 p2 p3 p4 p5 p6 p7 doe dcr = Return f
       ∧ mixed_policy self a p1 p2 p3 p4 p5 p6 p7 doe dcr = Return m
       ∧ subvention_policy self a p1 p2 p3 p4 p5 p6 p7 doe dcr = Return s
       ∧ length (np.sub f m) = length a
       ∧ length (np.sub m s) = length a
       ∧ (∀ i x fi mi si,
            a !! i = Some x → f !! i = Some fi → m !! i = Some mi →
            s !! i = Some si →
            (float_finite fi = true ∧ float_finite mi = true
             ∧ float_finite si = true)
            ∧ (Qabs (float_val fi - 5 * (1 - float_val x)) <= 18 * u54
               ∧ Qabs (float_val mi - 5 * ((1 # 2) - float_val x)) <= 9 * u54
               ∧ Qabs (float_val si - 5 * (0 - float_val x)) <= 8 * u54)%Q)
       ∧ (∀ i d d',
            np.sub f m !! i = Some d → np.sub m s !! i = Some d' →
            (float_finite d = true ∧ float_finite d' = true)
            ∧ (Qabs (float_val d - (5 # 2)) <= 31 * u54
               ∧ Qabs (float_val d' - (5 # 2)) <= 21 * u54
               ∧ Qabs (float_val d - float_val d') <= 52 * u54)%Q))
  ∧ (∃ f m s,
       fine_policy self [0; 0.5; 1]%float p1 p2 p3 p4 p5 p6 p7 doe dcr
       = Return f
       ∧ mixed_policy self [0; 0.5; 1]%float p1 p2 p3 p4 p5 p6 p7 doe dcr
         = Return m
       ∧ subvention_policy self [0; 0.5; 1]%float p1 p2 p3 p4 p5 p6 p7
           doe dcr = Return s
       ∧ array_eq f [5; 2.5; 0]%float
       ∧ array_eq m [2.5; 0; -2.5]%float
       ∧ array_eq s [0; -2.5; -5]%float
       ∧ array_eq (np.sub f m) (np.sub m s)).
Proof.
  split.
  - intros a Ha.
    eexists _, _, _.
    split; [apply fine_policy_eq|]. split; [apply mixed_policy_eq|].
    split; [apply subvention_policy_eq|].
    rewrite !sub_of_maps, !length_map. split; [done|]. split; [done|].
    unfold unit_actions in Ha. rewrite Forall_lookup in Ha. split.
    + intros i x fi mi si Hx.
      rewrite !list_lookup_fmap, Hx. intros [= <-] [= <-] [= <-].
      destruct (Ha i x Hx) as [H0 H1].
      destruct (adjustments_up_to_rounding x H0 H1)
        as ((Ff & Fm & Fs & _) & H & _).
      split; [by split_and!|exact H].
    + intros i d d'. rewrite !list_lookup_fmap.
      destruct (a !! i) as [x|] eqn:Hx; [|done]. intros [= <-] [= <-].
      destruct (Ha i x Hx) as [H0 H1].
      destruct (adjustments_up_to_rounding x H0 H1)
        as ((_ & _ & _ & F1 & F2) & _ & H).
      split; [by split|exact H].
  - eexists _, _, _. split_and!; [reflexivity..| | | |];
      unfold array_eq; cbn; repeat constructor.
Qed.

Lemma consistency_law_up_to_rounding_witness :
  unit_actions [0x1.47ae147ae147bp-6; 0x1.c4da9003eea21p-8; 1]%float
  ∧ ∃ f m s,
      fine_policy {| nb_actors := 3 |}
        [0x1.47ae147ae147bp-6; 0x1.c4da9003eea21p-8; 1]%float
        PyNone PyNone PyNone PyNone PyNone PyNone PyNone
        DOE_default DCR_default = Return f
      ∧ mixed_policy {| nb_actors := 3 |}
          [0x1.47ae147ae147bp-6; 0x1.c4da9003eea21p-8; 1]%float
          PyNone PyNone PyNone PyNone PyNone PyNone PyNone
          DOE_default DCR_default = Return m
      ∧ subvention_policy {| nb_actors := 3 |}
          [0x1.47ae147ae147bp-6; 0x1.c4da9003eea21p-8; 1]%float
          PyNone PyNone PyNone PyNone PyNone PyNone PyNone
          DOE_default DCR_default = Return s
      ∧ ∀ i d d',
          np.sub f m !! i = Some d → np.sub m s !! i = Some d' →
          (Qabs (float_val d - float_val d') <= 52 * u54)%Q.
Proof.
  assert (unit_actions
            [0x1.47ae147ae147bp-6; 0x1.c4da9003eea21p-8; 1]%float) as Ha
    by (repeat constructor).
  split; [exact Ha|].
  destruct (proj1 (consistency_law_up_to_rounding {| nb_actors := 3 |}
                     PyNone PyNone PyNone PyNone PyNone PyNone PyNone
                     DOE_default DCR_default) _ Ha)
    as (f & m & s & Hf & Hm & Hs & _ & _ & _ & H).
  exists f, m, s. split; [exact Hf|]. split; [exact Hm|]. split; [exact Hs|].
  intros i d d' Hd Hd'. exact (proj2 (proj2 (proj2 (H i d d' Hd Hd')))).
Defined.

(** ** More on saving a figure *)

Lemma drop_while_all {A} (f : A → bool) (l : list A) :
  forallb f l = true → os.drop_while f l = [].
Proof.
  induction l as [|x l IH]; simpl; [done|].
  destruct (f x); simpl; [exact IH|done].
Qed.

Lemma forallb_rev {A} (f : A → bool) (l : list A) :
  forallb f (rev l) = forallb f l.
Proof.
  induction l as [|x l IH]; simpl; [done|].
  rewrite forallb_app, IH. simpl. rewrite andb_true_r. apply andb_comm.
Qed.

(** A path without a separator has no directory part. *)
Lemma dirname_without_separator (p : string) :
  forallb (λ c, negb (os.is_sep c)) (list_ascii_of_string p) = true →
  os.dirname p = ""%string.
Proof.
  intros H. unfold os.dirname.
  rewrite drop_while_all by (by rewrite forallb_rev). reflexivity.
Qed.

Section saving_more.

Context {figure : Type}.
Variable mkdirs : string → stateful (os.filesystem figure) unit.
Variable savefig : figure → string → stateful (os.filesystem figure) unit.
Implicit Types (fig : figure) (fs : os.filesystem figure).

(** X8. For every path without a [/] the call raises [FileNotFoundError],
    in every file system: the guard takes the empty directory name for a
    missing directory and [os.makedirs] refuses it. *)
Theorem save_or_create_raises_without_separator fig fs (save_path : string) :
  forallb (λ c, negb (os.is_sep c)) (list_ascii_of_string save_path) = true →
  os.save_or_create mkdirs savefig fig save_path fs = Raise FileNotFoundError.
Proof.
  intros H. apply save_or_create_without_directory.
  by apply dirname_without_separator.
Qed.

(** What a call that returns has done. *)
Lemma save_or_create_inv fig fs fs' (save_path : string) :
  makes_the_directory mkdirs →
  os.save_or_create mkdirs savefig fig save_path fs = Return (tt, fs') →
  os.dirname save_path ≠ ""%string
  ∧ ∃ fs1, savefig fig save_path fs1 = Return (tt, fs')
      ∧ os.is_dir fs1 (os.dirname save_path)
        || os.is_file fs1 (os.dirname save_path) = true
      ∧ (fs1 = fs ∨ mkdirs (os.dirname save_path) fs = Return (tt, fs1)).
Proof.
  intros Hmk.
  destruct (decide (os.dirname save_path = ""%string)) as [Hd|Hd].
  { by rewrite save_or_create_without_directory. }
  destruct (os.is_dir fs (os.dirname save_path)
            || os.is_file fs (os.dirname save_path)) eqn:Hex.
  - rewrite save_or_create_in_directory by done.
    intros H. split; [done|]. exists fs. auto.
  - rewrite save_or_create_missing_directory by done.
    destruct (mkdirs _ fs) as [[[] fs1]|e] eqn:Hm; [|done].
    intros H. split; [done|]. exists fs1. split; [done|].
    split; [|by right]. by rewrite (Hmk _ _ _ Hm).
Qed.

(** X9. Provided [os.makedirs] leaves the directory it was asked for, a
    call that returns has called [savefig] with the figure and the path it
    was given, in a file system in which the directory part of the path
    exists: the one the call started in, or the one [os.makedirs] made of
    it.  What the call leaves is what [savefig] left. *)
Theorem save_or_create_saves_in_existing_directory
    fig fs fs' (save_path : string) :
  makes_the_directory mkdirs →
  os.save_or_create mkdirs savefig fig save_path fs = Return (tt, fs') →
  ∃ fs1, savefig fig save_path fs1 = Return (tt, fs')
    ∧ os.path_exists (os.dirname save_path) fs1 = Return (true, fs1)
    ∧ (fs1 = fs ∨ os.makedirs mkdirs (os.dirname save_path) fs
                   = Return (tt, fs1)).
Proof.
  intros Hmk H.
  apply save_or_create_inv in H as (Hd & fs1 & Hs & Hex & Hfs); [|done].
  exists fs1. split; [done|]. split.
  - unfold os.path_exists. rewrite decide_False by done. by rewrite Hex.
  - destruct Hfs as [?|Hm]; [by left|right].
    unfold os.makedirs. by rewrite decide_False.
Qed.

(** X10. Provided [os.makedirs] leaves the directory it was asked for and
    [savefig] removes nothing, a second call on the path of a call that
    returned does not call [os.makedirs] again: it is the figure's
    [savefig]. *)
Theorem save_or_create_twice fig fig' fs fs' (save_path : string) :
  makes_the_directory mkdirs →
  removes_nothing savefig →
  os.save_or_create mkdirs savefig fig save_path fs = Return (tt, fs') →
  os.save_or_create mkdirs savefig fig' save_path fs'
  = savefig fig' save_path fs'.
Proof.
  intros Hmk Hsv H.
  apply save_or_create_inv in H as (Hd & fs1 & Hs & Hex & _); [|done].
  apply save_or_create_in_directory; [done|]. by eapply Hsv.
Qed.

End saving_more.

Lemma example_mkdirs_makes_the_directory :
  makes_the_directory example_mkdirs.
Proof.
  intros d fs fs1. unfold example_mkdirs.
  destruct (os.is_dir fs d || os.is_file fs d); [done|].
  intros [= <-]. unfold os.is_dir. apply bool_decide_eq_true. simpl.
  apply elem_of_union_l, elem_of_union_r. by apply elem_of_singleton.
Qed.

Lemma example_savefig_removes_nothing : removes_nothing example_savefig.
Proof.
  intros fig p q fs1 fs2. unfold example_savefig.
  destruct (os.is_dir fs1 (os.dirname p)); [|done].
  intros [= <-]. unfold os.is_dir, os.is_file. simpl.
  intros [Hq|Hq]%orb_true_iff; apply orb_true_iff; [by left|right].
  apply bool_decide_eq_true in Hq. apply bool_decide_eq_true.
  destruct (decide (p = q)) as [->|Hne].
  - rewrite lookup_insert_eq. eauto.
  - by rewrite lookup_insert_ne.
Qed.

Lemma save_or_create_raises_without_separator_witness :
  forallb (λ c, negb (os.is_sep c)) (list_ascii_of_string "figure.png") = true
  ∧ os.save_or_create (λ _ fs, Return (tt, fs)) (λ _ _ fs, Return (tt, fs))
      7 "figure.png" example_fs
    = Raise FileNotFoundError.
Proof.
  split; [reflexivity|].
  apply (save_or_create_raises_without_separator
           (λ _ fs, Return (tt, fs)) (λ _ _ fs, Return (tt, fs))
           7 example_fs "figure.png").
  reflexivity.
Defined.

Lemma save_or_create_saves_in_existing_directory_witness :
  makes_the_directory example_mkdirs
  ∧ ∃ fs', os.save_or_create example_mkdirs example_savefig 7
             "figs/2024/a.png" example_fs = Return (tt, fs')
      ∧ ∃ fs1, example_savefig 7 "figs/2024/a.png" fs1 = Return (tt, fs')
          ∧ os.path_exists (os.dirname "figs/2024/a.png") fs1
            = Return (true, fs1)
          ∧ (fs1 = example_fs
             ∨ os.makedirs example_mkdirs (os.dirname "figs/2024/a.png")
                 example_fs = Return (tt, fs1)).
Proof.
  split; [exact example_mkdirs_makes_the_directory|].
  eexists. split; [reflexivity|].
  apply (save_or_create_saves_in_existing_directory
           example_mkdirs example_savefig 7 example_fs _ "figs/2024/a.png");
    [exact example_mkdirs_makes_the_directory|reflexivity].
Defined.

Lemma save_or_create_twice_witness :
  makes_the_directory example_mkdirs
  ∧ removes_nothing example_savefig
  ∧ ∃ fs', os.save_or_create example_mkdirs example_savefig 7
             "figs/2024/a.png" example_fs = Return (tt, fs')
      ∧ os.save_or_create example_mkdirs example_savefig 8
          "figs/2024/a.png" fs'
        = example_savefig 8 "figs/2024/a.png" fs'.
Proof.
  split; [exact example_mkdirs_makes_the_directory|].
  split; [exact example_savefig_removes_nothing|].
  eexists. split; [reflexivity|].
  apply (save_or_create_twice
           example_mkdirs example_savefig 7 8 example_fs _ "figs/2024/a.png");
    [exact example_mkdirs_makes_the_directory
    |exact example_savefig_removes_nothing|reflexivity].
Defined.

(** ** Loading the parameters *)

Section loader_properties.

Variable parse : string → option yaml.value.
Implicit Types (w : yaml.world) (file_path : string).

Lemma world_eta w :
  {| yaml.disk := yaml.disk w; yaml.open_files := yaml.open_files w |} = w.
Proof. by destruct w. Qed.

(** The [with] block on a file that is there: the text is parsed and the
    file is closed again. *)
Lemma with_open_safe_load file_path w text :
  os.is_dir (yaml.disk w) file_path = false →
  os.files (yaml.disk w) !! file_path = Some text →
  yaml.with_open file_path (λ file, yaml.safe_load parse file) w
  = (match parse text with
     | Some data => inr data
     | None => inl yaml.YAMLError
     end, w).
Proof.
  intros Hd Hf. unfold yaml.with_open, yaml.open_read, os.is_file.
  rewrite Hd, Hf. rewrite bool_decide_eq_true_2 by eauto.
  unfold yaml.safe_load, mbind, yaml.io_bind, yaml.read. simpl. rewrite Hf.
  destruct (parse text); simpl; rewrite decide_True by done;
    by rewrite world_eta.
Qed.

Lemma with_open_missing file_path w :
  os.files (yaml.disk w) !! file_path = None →
  yaml.with_open file_path (λ file, yaml.safe_load parse file) w
  = (inl (yaml.Builtin
            (if os.is_dir (yaml.disk w) file_path then IsADirectoryError
             else if existsb (os.is_file (yaml.disk w))
                       (os.parents (String.length file_path) file_path)
             then NotADirectoryError else FileNotFoundError)), w).
Proof.
  intros Hf. unfold yaml.with_open, yaml.open_read, os.is_file at 1.
  rewrite Hf. destruct (os.is_dir _ _); [done|].
  rewrite bool_decide_eq_false_2 by (by intros [? ?]).
  by destruct (existsb _ _).
Qed.

(** X11. Whether it returns or raises, the call leaves the world as it
    found it: no file is written, and the file it opened is closed. *)
Theorem load_parameters_leaves_the_world file_path w :
  snd (yaml.load_parameters_from_yaml parse file_path w) = w.
Proof.
  unfold yaml.load_parameters_from_yaml, mbind, yaml.io_bind.
  destruct (os.files (yaml.disk w) !! file_path) as [text|] eqn:Hf.
  - destruct (os.is_dir (yaml.disk w) file_path) eqn:Hd.
    + unfold yaml.with_open, yaml.open_read. by rewrite Hd.
    + rewrite (with_open_safe_load _ _ _ Hd Hf).
      destruct (parse text) as [data|]; [|done].
      destruct data; try done. simpl.
      destruct (m !! _); reflexivity.
  - by rewrite with_open_missing.
Qed.

(** X12. The call returns [v] exactly when the path names a file whose
    text parses to a mapping that has [v] under the key [parameters]. *)
Theorem load_parameters_returns file_path w v :
  fst (yaml.load_parameters_from_yaml parse file_path w) = inr v
  ↔ os.is_dir (yaml.disk w) file_path = false
    ∧ ∃ text m, os.files (yaml.disk w) !! file_path = Some text
        ∧ parse text = Some (yaml.Map m)
        ∧ m !! "parameters"%string = Some v.
Proof.
  unfold yaml.load_parameters_from_yaml, mbind, yaml.io_bind.
  destruct (os.files (yaml.disk w) !! file_path) as [text|] eqn:Hf.
  - destruct (os.is_dir (yaml.disk w) file_path) eqn:Hd.
    + unfold yaml.with_open, yaml.open_read. rewrite Hd. simpl.
      split; [done|]. by intros [? _].
    + rewrite (with_open_safe_load _ _ _ Hd Hf). split.
      * destruct (parse text) as [[]|] eqn:Hp; try done. simpl.
        destruct (m !! "parameters"%string) eqn:Hm; [|done].
        intros [= ->]. split; [done|]. by exists text, m.
      * intros (_ & text' & m & [= <-] & -> & Hm). simpl. by rewrite Hm.
  - rewrite with_open_missing by done. simpl. split; [done|].
    by intros (_ & ? & ? & ? & _).
Qed.

(** X13. On a file that is there the call raises the parser's error for
    a text that is not YAML, [KeyError] for a mapping without the key
    [parameters], and [TypeError] for a document that is no mapping, the
    empty document included. *)
Theorem load_parameters_raises file_path w text :
  os.is_dir (yaml.disk w) file_path = false →
  os.files (yaml.disk w) !! file_path = Some text →
  (parse text = None →
   fst (yaml.load_parameters_from_yaml parse file_path w)
   = inl yaml.YAMLError)
  ∧ (∀ m, parse text = Some (yaml.Map m) →
          m !! "parameters"%string = None →
          fst (yaml.load_parameters_from_yaml parse file_path w)
          = inl (yaml.KeyError "parameters"))
  ∧ (∀ data, parse text = Some data → (∀ m, data ≠ yaml.Map m) →
             fst (yaml.load_parameters_from_yaml parse file_path w)
             = inl (yaml.Builtin TypeError)).
Proof.
  intros Hd Hf.
  unfold yaml.load_parameters_from_yaml, mbind, yaml.io_bind.
  rewrite (with_open_safe_load _ _ _ Hd Hf). split_and!.
  - by intros ->.
  - intros m -> Hm. simpl. by rewrite Hm.
  - intros data -> Hdata. destruct data; try done. by destruct (Hdata m).
Qed.


End loader_properties.

Lemma load_parameters_raises_witness :
  os.is_dir (yaml.disk example_world) "conf/empty.yaml" = false
  ∧ os.files (yaml.disk example_world) !! "conf/empty.yaml"%string
    = Some ""%string
  ∧ fst (yaml.load_parameters_from_yaml example_parse "conf/empty.yaml"
           example_world)
    = inl (yaml.Builtin TypeError).
Proof.
  assert (os.is_dir (yaml.disk example_world) "conf/empty.yaml" = false)
    as Hd by reflexivity.
  assert (os.files (yaml.disk example_world) !! "conf/empty.yaml"%string
          = Some ""%string) as Hf by reflexivity.
  split; [exact Hd|]. split; [exact Hf|].
  refine (proj2 (proj2 (load_parameters_raises example_parse
                          "conf/empty.yaml" example_world "" Hd Hf))
            yaml.Null eq_refl _).
  intros m. discriminate.
Defined.


Example plain_examples :
  (os.plain "conf/params.yaml", os.plain "params.yaml",
   os.plain "conf/../conf/params.yaml", os.plain "./params.yaml",
   os.plain "/etc/params.yaml", os.plain "conf//params.yaml",
   os.plain "conf/", os.plain "")
  = (true, true, false, false, false, false, false, false).
Proof. reflexivity. Qed.

Example load_parameters_example :
  fst (yaml.load_parameters_from_yaml example_parse "conf/params.yaml"
         example_world)
  = inr (yaml.Map (<["DOE"%string := yaml.Int 15]>
                     {["DCR"%string := yaml.Int 10]}))
  ∧ fst (yaml.load_parameters_from_yaml example_parse "conf/flat.yaml"
           example_world)
    = inl (yaml.KeyError "parameters").
Proof. split; reflexivity. Qed.
